(** * The threads replication service (service.go)

    A shallow embedding of the RPC service of the threads package:
    [PushRecord], [handleNewLogs], [handleLogUpdate], [requestPubKey],
    [verifyRequestSignature], the subscription loop, the request built by
    [pushRecord] and the [records] aggregator.

    The service talks to collaborators that live outside service.go: the
    thread store (the log directory), the block store, the owning [threads]
    component, the record codec and the libp2p crypto and peer packages.
    They are interfaces here (type classes over an abstract node state [W]).
    A run of a handler returns its result, the node state it leaves and the
    list of collaborator calls it made, in program order.

    Conventions.
    - A Go pointer of a request or of a reply is an [option], [None] being
      nil. Where the source tests it the model has a [match] with a branch
      of its own for nil; where the source reads through it without a test
      ([Header.From], [ThreadID], [LogID] and [Record] of a
      PushRecordRequest, the pointers of the other requests and of a
      pb.Log) nil is a panic.
    - A Go [(value, error)] result is a [Result]; an [error] result is an
      [option error]. The handlers that read a request end in an [Outcome]:
      they return a [Result] or they panic. Panics inside the collaborators
      are not modelled.
    - [go f(...)] is recorded as a call of its own ([CGoPullHistory],
      [CGoSubscribe]), with the arguments that are evaluated at the go
      statement; what the goroutine does later is not part of the run of
      the handler that spawned it.
    - [log.Error] and [log.Infof] are recorded; [log.Debugf] is not. *)

From Stdlib Require Import String List ZArith Bool Lia.
From stdpp Require Import base option list gmap strings.
Import ListNotations.

#[local] Set Warnings "-clear-no-such-hyp".

Local Open Scope string_scope.
Local Open Scope list_scope.

(** ** Data model *)

Definition bytes := string.
Definition error := string.
Definition PeerID := string.      (* peer.ID: type ID string *)
Definition ThreadID := string.    (* thread.ID *)
Definition Cid := string.         (* cid.Cid: struct { str string } *)
Definition Multiaddr := string.   (* ma.Multiaddr, by its canonical bytes *)
Definition PubKey := string.      (* ic.PubKey, by its raw bytes *)
Definition PrivKey := string.     (* ic.PrivKey *)
Definition SymKey := string.      (* crypto.Key held by the directory *)
Definition Node := bytes.         (* format.Node *)
Definition Event := bytes.        (* thread.Event *)
Definition pbRecord := bytes.     (* pb.Record *)

(** A Go [(value, error)] pair. *)
Inductive Result (A : Type) : Type :=
| Ok (a : A)
| Err (e : error).
Arguments Ok {A} a.
Arguments Err {A} e.

(** How a call of a function ends: it returns, or it panics (in this
    file: on a nil pointer dereference). *)
Inductive Outcome (A : Type) : Type :=
| Returns (r : Result A)
| Panics.
Arguments Returns {A} r.
Arguments Panics {A}.

(** pstore.PermanentAddrTTL = math.MaxInt64 - iota, first of its block. *)
Definition PermanentAddrTTL : Z := 9223372036854775807.

(** thread.LogInfo *)
Record LogInfo := {
  lg_ID : PeerID;
  lg_PubKey : PubKey;
  lg_PrivKey : option PrivKey;
  lg_FollowKey : option SymKey;
  lg_ReadKey : option SymKey;
  lg_Addrs : list Multiaddr;
  lg_Heads : list Cid
}.

(** thread.Info: [Logs] is a peer.IDSlice. *)
Record ThreadInfo := {
  ti_ID : ThreadID;
  ti_Logs : list PeerID
}.

(** thread.Record, by the values of its accessors. *)
Record Record_ := {
  rec_Cid : Cid;
  rec_BlockID : Cid;
  rec_PrevID : Cid;
  rec_Sig : bytes
}.

(** Modelled from the spec: the Logs document of the cbor package
    (cbor/logs.go is not part of the sources at hand). The spec's data model
    has it as a set of log descriptors plus a boolean readable flag;
    service.go reads the descriptors as [lgs.Logs], the flag as
    [lgs.Readable()], and passes both to [cbor.NewLogs]. *)
Record Logs := {
  Logs_Logs : list LogInfo;
  Logs_readable : bool
}.

Definition Readable (lgs : Logs) : bool := Logs_readable lgs.

(** pb.ProtoKey wraps a crypto.Key, which may be nil. *)
Record ProtoKey := { pk_Key : option SymKey }.

(** pb.PushRecordRequest_Header. [From], [Key], [FollowKey] and
    [ReadKeyLogID] are pointers: [Key], [FollowKey] and [ReadKeyLogID] are
    tested against nil by the source, [From] is not. *)
Record Header := {
  hdr_From : option PeerID;
  hdr_Signature : bytes;
  hdr_Key : option PubKey;
  hdr_FollowKey : option ProtoKey;
  hdr_ReadKeyLogID : option PeerID
}.

(** pb.PushRecordRequest. Its four fields are pointers; the source tests
    [Header] against nil and none of the others. *)
Record PushRecordRequest := {
  req_Header : option Header;
  req_ThreadID : option ThreadID;
  req_LogID : option PeerID;
  req_Record : option pbRecord
}.

(** pb.PushRecordReply *)
Record PushRecordReply := { NewAddr : option Multiaddr }.

(** pubsub.Message, the two fields the loop reads. *)
Record Message := {
  msg_From : bytes;
  msg_Data : bytes
}.

(** tserv.AddSettings *)
Record AddSettings := {
  set_ThreadID : ThreadID;
  set_KeyLog : PeerID;
  set_Addrs : list Multiaddr
}.

(** crypto.DecryptionKey: the three kinds of value the service puts behind
    the interface. *)
Inductive DecryptionKey :=
| HeaderKey (k : ProtoKey)     (* req.Header.FollowKey *)
| StoreKey (k : SymKey)        (* a key returned by the directory *)
| HostKey (sk : PrivKey).      (* asymmetric.NewDecryptionKey(sk) *)

(** ** Collaborator calls, as recorded in a run *)

Inductive Call :=
| CThreadInfo (id : ThreadID)
| CPubKey (id : ThreadID) (lid : PeerID)
| CFollowKey (id : ThreadID) (lid : PeerID)
| CReadKey (id : ThreadID) (lid : PeerID)
| CAddrs (id : ThreadID) (lid : PeerID)
| CAddLog (id : ThreadID) (lg : LogInfo)
| CAddAddr (id : ThreadID) (lid : PeerID) (addr : Multiaddr) (ttl : Z)
| CHas (c : Cid)
| CGetPrivKey
| CCreateLog
| CRecordFromProto (r : pbRecord) (k : DecryptionKey)
| CRecordToProto (r : Record_)
| CEventFromRecord (r : Record_)
| CGetBody (e : Event) (k : DecryptionKey)
| CLogsFromNode (n : Node)
| CNewLogs (lgs : list LogInfo) (readable : bool)
| CAddRecord (body : Node) (id : ThreadID) (keyLog : PeerID)
| CPutRecord (r : Record_) (id : ThreadID) (lid : PeerID)
| CGoPullHistory (id : ThreadID)
| CGoSubscribe (id : ThreadID)
| CLogError (e : error)
| CLogInfo (msg : string).

(** ** Collaborator interfaces *)

(** libp2p peer and crypto, and the signature check of a thread record. *)
Class Crypto := {
  ID_String : PeerID -> string;
  IDFromBytes : bytes -> Result PeerID;
  ExtractPublicKey : PeerID -> Result (option PubKey);
  MatchesPublicKey : PeerID -> PubKey -> bool;
  PubKey_Verify : PubKey -> bytes -> bytes -> bool * option error;
  PrivKey_Sign : PrivKey -> bytes -> Result bytes;
  GetPublic : PrivKey -> PubKey;
  NewDecryptionKey : PrivKey -> Result DecryptionKey;
  Record_Verify : Record_ -> PubKey -> option error
}.

(** The pb and cbor codecs and go-multiaddr. The calls that take the DAG
    service [s.threads] read the node state. *)
Class Codec (W : Type) := {
  Record_Marshal : pbRecord -> Result bytes;
  Unmarshal : bytes -> Result PushRecordRequest;
  RecordFromProto : pbRecord -> DecryptionKey -> Result Record_;
  RecordToProto : W -> Record_ -> Result pbRecord;
  EventFromRecord : W -> Record_ -> Result Event;
  GetBody : W -> Event -> DecryptionKey -> Result Node;
  LogsFromNode : Node -> Result Logs;
  NewLogs : list LogInfo -> bool -> Result Node;
  P_P2P_Name : string;                       (* ma.ProtocolWithCode(ma.P_P2P).Name *)
  NewMultiaddr : string -> Result Multiaddr
}.

(** The [threads] component that owns the service: its host, its thread
    store (the directory), its block store, and the operations of threads.go
    the service calls back. *)
Class Threads (W : Type) := {
  host_ID : PeerID;                          (* s.threads.host.ID() *)
  getPrivKey : W -> option PrivKey;
  store_ThreadInfo : W -> ThreadID -> Result ThreadInfo;
  store_PubKey : W -> ThreadID -> PeerID -> Result (option PubKey);
  store_FollowKey : W -> ThreadID -> PeerID -> Result (option SymKey);
  store_ReadKey : W -> ThreadID -> PeerID -> Result (option SymKey);
  store_Addrs : W -> ThreadID -> PeerID -> Result (list Multiaddr);
  store_AddLog : W -> ThreadID -> LogInfo -> option error * W;
  store_AddAddr : W -> ThreadID -> PeerID -> Multiaddr -> Z -> option error * W;
  bstore_Has : W -> Cid -> Result bool;
  createLog : W -> Result LogInfo * W;
  AddRecord : W -> Node -> ThreadID -> PeerID -> Result Record_ * W;
  PutRecord : W -> Record_ -> ThreadID -> PeerID -> option error * W
}.

(** ** Runs: state, errors and the call log *)

Definition M (W A : Type) : Type := W -> Result A * W * list Call.

Section Monad.
Context {W : Type}.

Definition ret {A} (a : A) : M W A := fun w => (Ok a, w, []).

Definition fail {A} (e : error) : M W A := fun w => (Err e, w, []).

Definition bind {A B} (m : M W A) (k : A -> M W B) : M W B :=
  fun w =>
    match m w with
    | (Ok a, w1, t1) =>
        match k a w1 with
        | (r, w2, t2) => (r, w2, t1 ++ t2)
        end
    | (Err e, w1, t1) => (Err e, w1, t1)
    end.

(** A pure fallible step that is not recorded. *)
Definition lift {A} (r : Result A) : M W A := fun w => (r, w, []).

(** [err = f(...)] followed by [if err != nil { return err }], pure. *)
Definition check (oe : option error) : M W unit :=
  fun w => (match oe with None => Ok tt | Some e => Err e end, w, []).

(** A recorded pure step. *)
Definition call {A} (c : Call) (r : Result A) : M W A := fun w => (r, w, [c]).

(** A recorded read of the node state. *)
Definition query {A} (c : Call) (f : W -> Result A) : M W A :=
  fun w => (f w, w, [c]).

(** A recorded operation that returns only an error. *)
Definition update (c : Call) (f : W -> option error * W) : M W unit :=
  fun w =>
    match f w with
    | (None, w') => (Ok tt, w', [c])
    | (Some e, w') => (Err e, w', [c])
    end.

(** A recorded operation that returns a value and an error. *)
Definition invoke {A} (c : Call) (f : W -> Result A * W) : M W A :=
  fun w => match f w with (r, w') => (r, w', [c]) end.

(** A recorded statement without a result ([go], a log line). *)
Definition emit (c : Call) : M W unit := fun w => (Ok tt, w, [c]).

(** Run [m] and hand its error to the caller as a value. *)
Definition attempt {A} (m : M W A) : M W (Result A) :=
  fun w => match m w with (r, w', t) => (Ok r, w', t) end.

(** Run [m]; on an error return [h e] from the enclosing function. *)
Definition or_return {A B} (m : M W A) (h : error -> B) (k : A -> M W B) : M W B :=
  fun w =>
    match m w with
    | (Ok a, w1, t1) =>
        match k a w1 with
        | (r, w2, t2) => (r, w2, t1 ++ t2)
        end
    | (Err e, w1, t1) => (Ok (h e), w1, t1)
    end.
End Monad.

Notation "'let*' x ':=' m 'in' k" := (bind m (fun x => k))
  (at level 10, x pattern, m at level 100, k at level 200).

(** The three components of a run. *)
Definition result {W R} (r : R * W * list Call) : R := fst (fst r).
Definition state {W R} (r : R * W * list Call) : W := snd (fst r).
Definition calls {W R} (r : R * W * list Call) : list Call := snd r.

(** ** Runs that may panic

    [PushRecord] and the loop of [subscribe] read through pointers of a
    request that came over the wire. Their runs end in an [Outcome]; a
    panic leaves the node as it was when it happened and goes up through
    every caller, none of them recovering. *)

Definition MP (W A : Type) : Type := W -> Outcome A * W * list Call.

Section MonadP.
Context {W : Type}.

Definition retP {A} (a : A) : MP W A := fun w => (Returns (Ok a), w, []).

Definition failP {A} (e : error) : MP W A := fun w => (Returns (Err e), w, []).

Definition bindP {A B} (m : MP W A) (k : A -> MP W B) : MP W B :=
  fun w =>
    match m w with
    | (Returns (Ok a), w1, t1) =>
        match k a w1 with
        | (r, w2, t2) => (r, w2, t1 ++ t2)
        end
    | (Returns (Err e), w1, t1) => (Returns (Err e), w1, t1)
    | (Panics, w1, t1) => (Panics, w1, t1)
    end.

(** A run that does not panic. *)
Definition returns {A} (m : M W A) : MP W A :=
  fun w => match m w with (r, w', t) => (Returns r, w', t) end.

(** A pure step that may panic, not recorded. *)
Definition pure {A} (o : Outcome A) : MP W A := fun w => (o, w, []).

(** A read through a pointer the source does not test: nil panics. *)
Definition deref {A} (p : option A) : MP W A :=
  fun w => (match p with Some a => Returns (Ok a) | None => Panics end, w, []).

(** Run [m] and hand its error to the caller as a value; a panic goes
    through. *)
Definition attemptP {A} (m : MP W A) : MP W (Result A) :=
  fun w =>
    match m w with
    | (Returns r, w', t) => (Returns (Ok r), w', t)
    | (Panics, w', t) => (Panics, w', t)
    end.
End MonadP.

Notation "'let!' x ':=' m 'in' k" := (bindP m (fun x => k))
  (at level 10, x pattern, m at level 100, k at level 200).

(** ** The records aggregator (service.go, type [records]) *)

Record records := {
  records_m : gmap Cid Record_;     (* field m *)
  records_s : list Record_          (* field s *)
}.

Definition newRecords : records := {| records_m := ∅; records_s := [] |}.

(** [List]: the slice, as it is. *)
Definition List_ (r : records) : list Record_ := records_s r.

Definition Store (key : Cid) (value : Record_) (r : records) : records :=
  match records_m r !! key with
  | Some _ => r
  | None => {| records_m := <[key := value]> (records_m r);
               records_s := records_s r ++ [value] |}
  end.

(** ** The service *)

Section Service.
Context {W : Type} `{!Crypto} `{!Codec W} `{!Threads W}.

(** [requestPubKey]. The argument is [r.Header], which the only caller
    has checked to be non-nil. Both branches read [r.Header.From.ID]
    without a test of [From]. *)
Definition requestPubKey (h : Header) : Outcome PubKey :=
  match hdr_Key h with
  | None =>
      (* No attached key, it must be extractable from the source ID *)
      match hdr_From h with
      | None => Panics
      | Some from =>
          match ExtractPublicKey from with
          | Err e => Returns (Err ("cannot extract signing key: " +:+ e))
          | Ok None => Returns (Err "cannot extract signing key")
          | Ok (Some pubk) => Returns (Ok pubk)
          end
      end
  | Some k =>
      (* Verify that the source ID matches the attached key *)
      match hdr_From h with
      | None => Panics
      | Some from =>
          if negb (MatchesPublicKey from k)
          then Returns (Err ("bad signing key; source ID " +:+ ID_String from
                             +:+ " doesn't match key"))
          else Returns (Ok k)
      end
  end.

(** [verifyRequestSignature]. [rec] is the record behind the pointer the
    function is given: [rec.Marshal()], its first statement, is generated
    code that reads the fields of its receiver, so that the pointer is
    dereferenced there; [PushRecord] below has the [deref] at the call. *)
Definition verifyRequestSignature (rec : pbRecord) (pk : PubKey) (sig : bytes)
  : option error :=
  match Record_Marshal rec with
  | Err e => Some e
  | Ok payload =>
      match PubKey_Verify pk payload sig with
      | (ok, err) =>
          if negb ok || bool_decide (err <> None)
          then Some "bad signature"
          else None
      end
  end.

(** [recordFromProto] *)
Definition recordFromProto (rec : pbRecord) (key : DecryptionKey) : Result Record_ :=
  RecordFromProto rec key.

(** The loop of [handleLogUpdate] over [lgs.Logs]. *)
Fixpoint handleLogUpdate_loop (id : ThreadID) (lid : PeerID) (rec : Record_)
    (lgs : list LogInfo) : M W unit :=
  match lgs with
  | [] => ret tt
  | lg :: rest =>
      if negb (MatchesPublicKey (lg_ID lg) (lg_PubKey lg)) then fail "invalid log"
      else if negb (String.eqb (ID_String (lg_ID lg)) (ID_String lid))
      then handleLogUpdate_loop id lid rec rest     (* continue *)
      else
        let* _ := check (Record_Verify rec (lg_PubKey lg)) in
        let* _ := update (CAddLog id lg) (fun w => store_AddLog w id lg) in
        handleLogUpdate_loop id lid rec rest
  end.

(** [handleLogUpdate] processes a record as a log update. *)
Definition handleLogUpdate (id : ThreadID) (lid : PeerID) (rec : Record_) : M W unit :=
  let* event := query (CEventFromRecord rec) (fun w => EventFromRecord w rec) in
  let* key := query (CReadKey id lid) (fun w => store_ReadKey w id lid) in
  match key with
  | None => ret tt                                   (* No key, carry on *)
  | Some key =>
      let* body := query (CGetBody event (StoreKey key))
                         (fun w => GetBody w event (StoreKey key)) in
      let* lgs := call (CLogsFromNode body) (LogsFromNode body) in
      handleLogUpdate_loop id lid rec (Logs_Logs lgs)
  end.

(** The loop of [handleNewLogs] over [lgs.Logs] ("Add incoming logs"). *)
Fixpoint handleNewLogs_loop (id : ThreadID) (lid : PeerID) (rec : Record_)
    (lgs : list LogInfo) : M W unit :=
  match lgs with
  | [] => ret tt
  | lg :: rest =>
      if negb (MatchesPublicKey (lg_ID lg) (lg_PubKey lg)) then fail "invalid log"
      else
        let* _ := (if String.eqb (ID_String (lg_ID lg)) (ID_String lid)
                   then check (Record_Verify rec (lg_PubKey lg))
                   else ret tt) in
        let* _ := update (CAddLog id lg) (fun w => store_AddLog w id lg) in
        (* Download log history. The closure is given no argument: it
           reads [lg.ID] from the loop variable when the goroutine runs,
           and only [id], which is never assigned to, is known here. *)
        let* _ := emit (CGoPullHistory id) in
        handleNewLogs_loop id lid rec rest
  end.

(** The named results [(ownLog, newAddr, err)] of [handleNewLogs]. *)
Definition NewLogsResult : Type := option LogInfo * option Multiaddr * option error.

(** A bare [return] with [err] set before [ownLog] and [newAddr] are. *)
Definition named_results (body : M W NewLogsResult) : M W NewLogsResult :=
  fun w =>
    match body w with
    | (Err e, w', t) => (Ok (None, None, Some e), w', t)
    | r => r
    end.

(** [handleNewLogs], from its entry to the decoding of the Logs document:
    the document and [newThread]. *)
Definition handleNewLogs_logs (id : ThreadID) (kid : PeerID) (rec : Record_)
  : M W (Logs * bool) :=
  let* event := query (CEventFromRecord rec) (fun w => EventFromRecord w rec) in
  let* ti := query (CThreadInfo id) (fun w => store_ThreadInfo w id) in
  let* (key, newThread) :=
    (if (0 <? length (ti_Logs ti))%nat then
       (* Thread exists: there should be a key log id *)
       let* key := query (CReadKey id kid) (fun w => store_ReadKey w id kid) in
       match key with
       | None => fail "read key not found"
       | Some key => ret (StoreKey key, false)
       end
     else
       (* Thread does not exist: try host peer's key *)
       let* sk := query CGetPrivKey (fun w => Ok (getPrivKey w)) in
       match sk with
       | None => fail "key for host not found"
       | Some sk =>
           let* key := lift (NewDecryptionKey sk) in
           ret (key, true)
       end) in
  let* body := query (CGetBody event key) (fun w => GetBody w event key) in
  let* lgs := call (CLogsFromNode body) (LogsFromNode body) in
  ret (lgs, newThread).

(** [handleNewLogs], from "Create an own log if this is a new thread" to
    its end: the roles this peer takes, given the document and
    [newThread]. *)
Definition handleNewLogs_roles (id : ThreadID) (lid : PeerID) (lgs : Logs)
    (newThread : bool) : M W NewLogsResult :=
  (* Create an own log if this is a new thread *)
  let* ownLog :=
    (if Readable lgs && newThread then
       let* lg := invoke CCreateLog createLog in
       let* _ := update (CAddLog id lg) (fun w => store_AddLog w id lg) in
       ret (Some lg)
     else ret None) in
  (* Subscribe to the new thread *)
  let subscribeNew (newAddr : option Multiaddr) : M W NewLogsResult :=
    let* _ := (if newThread then emit (CGoSubscribe id) else ret tt) in
    ret (ownLog, newAddr, None) in
  (* If not readable, return a new address for the sender's log. *)
  if negb (Readable lgs) then
    let* newAddr := lift (NewMultiaddr ("/" +:+ P_P2P_Name +:+ "/" +:+ ID_String host_ID)) in
    or_return
      (update (CAddAddr id lid newAddr PermanentAddrTTL)
              (fun w => store_AddAddr w id lid newAddr PermanentAddrTTL))
      (fun e => (ownLog, Some newAddr, Some e))
      (fun _ => subscribeNew (Some newAddr))
  else subscribeNew None.

(** [handleNewLogs] processes a record as a list of new logs. *)
Definition handleNewLogs (id : ThreadID) (lid kid : PeerID) (rec : Record_)
  : M W NewLogsResult :=
  named_results (
    let* (lgs, newThread) := handleNewLogs_logs id kid rec in
    (* Add incoming logs *)
    let* _ := handleNewLogs_loop id lid rec (Logs_Logs lgs) in
    handleNewLogs_roles id lid lgs newThread).

(** [PushRecord], from "Check if this log already exists" to its end:
    what is done with a record [rec] that is not in the block store.
    [id] and [lid] are [req.ThreadID.ID] and [req.LogID.ID], read for the
    call of [store.PubKey]; [reply] is the empty reply allocated before. *)
Definition PushRecord_new (id : ThreadID) (lid : PeerID) (hdr : Header) (rec : Record_)
    (reply : PushRecordReply) : M W PushRecordReply :=
  (* Check if this log already exists *)
  let* logpk := query (CPubKey id lid) (fun w => store_PubKey w id lid) in
  let* reply :=
    (match logpk with
     | None =>
         let kid := match hdr_ReadKeyLogID hdr with
                    | Some k => k
                    | None => ""                        (* var kid peer.ID *)
                    end in
         let* (lg_newAddr, err) := handleNewLogs id lid kid rec in
         let (lg, newAddr) := (lg_newAddr : option LogInfo * option Multiaddr) in
         match err with
         | Some e => fail e
         | None =>
             let reply := match newAddr with
                          | Some a => {| NewAddr := Some a |}
                          | None => reply
                          end in
             match lg with
             | Some lg =>
                 (* Notify existing logs of our new log *)
                 let* lgs := call (CNewLogs [lg] true) (NewLogs [lg] true) in
                 let* _ := invoke (CAddRecord lgs id lid)
                                  (fun w => AddRecord w lgs id lid) in
                 ret reply
             | None => ret reply
             end
         end
     | Some logpk =>
         (* Verify node *)
         let* _ := check (Record_Verify rec logpk) in
         let* r := attempt (handleLogUpdate id lid rec) in
         let* _ := (match r with
                    | Ok _ => emit (CLogInfo ("log " +:+ ID_String lid +:+ " updated"))
                    | Err _ => ret tt
                    end) in
         ret reply
     end) in
  let* _ := update (CPutRecord rec id lid) (fun w => PutRecord w rec id lid) in
  ret reply.

(** [PushRecord] receives a push record request. *)
Definition PushRecord (req : PushRecordRequest) : MP W PushRecordReply :=
  match req_Header req with
  | None => failP "request header is required"
  | Some hdr =>
      (* Verify the request *)
      let! reqpk := pure (requestPubKey hdr) in
      let! pbrec := deref (req_Record req) in       (* rec.Marshal() *)
      let! _ := returns (check (verifyRequestSignature pbrec reqpk (hdr_Signature hdr))) in
      let reply := {| NewAddr := None |} in
      (* Unpack the record *)
      let! key :=
        (match hdr_FollowKey hdr with
         | Some fk => retP (Some (HeaderKey fk))
         | None =>
             let! id := deref (req_ThreadID req) in
             let! lid := deref (req_LogID req) in
             let! k := returns (query (CFollowKey id lid)
                                      (fun w => store_FollowKey w id lid)) in
             retP (option_map StoreKey k)
         end) in
      match key with
      | None => failP "follow key not found"
      | Some key =>
          let! rec := returns (call (CRecordFromProto pbrec key)
                                    (recordFromProto pbrec key)) in
          let! knownRecord := returns (query (CHas (rec_Cid rec))
                                             (fun w => bstore_Has w (rec_Cid rec))) in
          if (knownRecord : bool) then retP reply
          else
            let! id := deref (req_ThreadID req) in
            let! lid := deref (req_LogID req) in
            returns (PushRecord_new id lid hdr rec reply)
      end
  end.

(** The loop of [pushRecord] that collects the addresses of the known
    writers. *)
Fixpoint pushRecord_addrs (tid : ThreadID) (lid : PeerID) (logs : list PeerID)
    (addrs : list Multiaddr) : M W (list Multiaddr) :=
  match logs with
  | [] => ret addrs
  | l :: rest =>
      if String.eqb (ID_String l) (ID_String lid)
      then pushRecord_addrs tid lid rest addrs          (* continue *)
      else
        let* laddrs := query (CAddrs tid l) (fun w => store_Addrs w tid l) in
        pushRecord_addrs tid lid rest (addrs ++ laddrs)
  end.

(** [pushRecord], from its entry to the construction of [req]: the
    addresses to push to and the request that is sent to each of them and
    published on the thread topic. The concurrent pushes that follow are
    not part of this definition. *)
Definition pushRecord_request (rec : Record_) (id : ThreadID) (lid : PeerID)
    (settings : AddSettings) : M W (list Multiaddr * PushRecordRequest) :=
  (* Collect known writers *)
  let* info := query (CThreadInfo (set_ThreadID settings))
                     (fun w => store_ThreadInfo w (set_ThreadID settings)) in
  let* addrs := pushRecord_addrs (set_ThreadID settings) lid (ti_Logs info) [] in
  (* Add additional addresses *)
  let addrs := addrs ++ set_Addrs settings in
  (* Serialize and sign the record for transport *)
  let* pbrec := query (CRecordToProto rec) (fun w => RecordToProto w rec) in
  let* payload := lift (Record_Marshal pbrec) in
  let* sk := query CGetPrivKey (fun w => Ok (getPrivKey w)) in
  match sk with
  | None => fail "key for host not found"
  | Some sk =>
      let* sig := lift (PrivKey_Sign sk payload) in
      let* logKey :=
        query (CReadKey (set_ThreadID settings) (set_KeyLog settings))
              (fun w => store_ReadKey w (set_ThreadID settings) (set_KeyLog settings)) in
      let keyLog := match logKey with
                    | Some _ => Some (set_KeyLog settings)
                    | None => None
                    end in
      let* followKey := query (CFollowKey id lid) (fun w => store_FollowKey w id lid) in
      ret (addrs,
           {| req_Header := Some {| hdr_From := Some host_ID;
                                    hdr_Signature := sig;
                                    hdr_Key := Some (GetPublic sk);
                                    hdr_FollowKey := Some {| pk_Key := followKey |};
                                    hdr_ReadKeyLogID := keyLog |};
              req_ThreadID := Some id;
              req_LogID := Some lid;
              req_Record := Some pbrec |})
  end.

(** How an iteration of a [for] loop ends. *)
Inductive LoopCtl := Continue | Break.

(** [log.Error(err)] *)
Definition logError (e : error) : MP W unit := returns (emit (CLogError e)).

(** One iteration of the loop of [subscribe]: [item] is what [sub.Next]
    returned. *)
Definition subscribe_body (item : Result Message) : MP W LoopCtl :=
  match item with
  | Err e => let! _ := logError e in retP Break
  | Ok msg =>
      match IDFromBytes (msg_From msg) with
      | Err e => let! _ := logError e in retP Break
      | Ok from =>
          if String.eqb (ID_String from) (ID_String host_ID) then retP Continue
          else
            match Unmarshal (msg_Data msg) with
            | Err e => let! _ := logError e in retP Continue
            | Ok req =>
                let! r := attemptP (PushRecord req) in
                match r with
                | Err e => let! _ := logError e in retP Continue
                | Ok _ => retP Continue
                end
            end
      end
  end.

(** The loop of [subscribe], run on the successive results of [sub.Next].
    When they are used up the loop is waiting in [sub.Next]. *)
Fixpoint subscribe_loop (next : list (Result Message)) : MP W unit :=
  match next with
  | [] => retP tt
  | item :: rest =>
      let! c := subscribe_body item in
      match c with
      | Continue => subscribe_loop rest
      | Break => retP tt
      end
  end.

(** [subscribe] to a thread for updates: [sub] is what
    [s.pubsub.Subscribe(id.String())] returned, a subscription being given
    by the results of its [Next]. *)
Definition subscribe (sub : Result (list (Result Message))) : MP W unit :=
  match sub with
  | Err e => logError e
  | Ok next => subscribe_loop next
  end.
End Service.

(** ** A test node

    A small concrete instance of the three interfaces, used to run the
    handlers on explicit requests. Peer identities embed their key unless
    they start with "Qm"; a signature over [payload] under key [pk] is
    the string [pk:payload]; every record is signed by alice. *)

Module Fixture.

Record node := {
  n_priv : option PrivKey;                  (* the host key *)
  n_dir : list (ThreadID * LogInfo);        (* the directory *)
  n_blocks : list Cid                       (* the block store *)
}.

Definition hashed (id : PeerID) : bool := String.prefix "Qm" id.

#[export] Instance crypto : Crypto := {|
  ID_String id := id;
  IDFromBytes b := if String.eqb b "" then Err "empty peer id" else Ok b;
  ExtractPublicKey id :=
    if hashed id then Err "public key is not embedded in peer ID" else Ok (Some id);
  MatchesPublicKey id pk := String.eqb id pk || String.eqb id ("Qm" +:+ pk);
  PubKey_Verify pk payload sig := (String.eqb sig (pk +:+ ":" +:+ payload), None);
  PrivKey_Sign sk payload := Ok (String.substring 3 (String.length sk - 3) sk +:+ ":" +:+ payload);
  GetPublic sk := String.substring 3 (String.length sk - 3) sk;
  NewDecryptionKey sk := Ok (HostKey sk);
  Record_Verify rec pk :=
    if String.eqb (rec_Sig rec) pk then None else Some "bad record signature"
|}.

Definition alice_log : LogInfo :=
  {| lg_ID := "alice"; lg_PubKey := "alice"; lg_PrivKey := None;
     lg_FollowKey := Some "fk-alice"; lg_ReadKey := Some "rk-alice";
     lg_Addrs := ["/p2p/alice"]; lg_Heads := [] |}.

Definition alice_follow_log : LogInfo :=
  {| lg_ID := "alice"; lg_PubKey := "alice"; lg_PrivKey := None;
     lg_FollowKey := Some "fk-alice"; lg_ReadKey := None;
     lg_Addrs := ["/p2p/alice"]; lg_Heads := [] |}.

(** A descriptor whose LogID does not match its PubKey. *)
Definition mallory_log : LogInfo :=
  {| lg_ID := "mallory"; lg_PubKey := "eve"; lg_PrivKey := None;
     lg_FollowKey := Some "fk-mallory"; lg_ReadKey := Some "rk-mallory";
     lg_Addrs := ["/p2p/mallory"]; lg_Heads := [] |}.

Definition carol_log : LogInfo :=
  {| lg_ID := "carol"; lg_PubKey := "carol"; lg_PrivKey := None;
     lg_FollowKey := Some "fk-carol"; lg_ReadKey := Some "rk-carol";
     lg_Addrs := ["/p2p/carol"]; lg_Heads := [] |}.

Definition own_log : LogInfo :=
  {| lg_ID := "bob-log"; lg_PubKey := "bob-log"; lg_PrivKey := Some "sk:bob-log";
     lg_FollowKey := Some "fk-bob"; lg_ReadKey := Some "rk-bob";
     lg_Addrs := ["/p2p/bob"]; lg_Heads := [] |}.

Definition doc_reader : Logs := {| Logs_Logs := [alice_log]; Logs_readable := true |}.
Definition doc_follower : Logs := {| Logs_Logs := [alice_follow_log]; Logs_readable := false |}.
Definition doc_mixed : Logs := {| Logs_Logs := [alice_log; mallory_log]; Logs_readable := true |}.
Definition doc_carol_mixed : Logs :=
  {| Logs_Logs := [carol_log; mallory_log]; Logs_readable := true |}.

Definition header (from : PeerID) (key : option PubKey) (sig : bytes)
    (fk : option ProtoKey) (kid : option PeerID) : Header :=
  {| hdr_From := Some from; hdr_Signature := sig; hdr_Key := key;
     hdr_FollowKey := fk; hdr_ReadKeyLogID := kid |}.

(** A request for alice's log of thread t1. *)
Definition request (from : PeerID) (key : option PubKey) (sig : bytes)
    (fk : option ProtoKey) (kid : option PeerID) (rec : pbRecord) : PushRecordRequest :=
  {| req_Header := Some (header from key sig fk kid);
     req_ThreadID := Some "t1"; req_LogID := Some "alice"; req_Record := Some rec |}.

Definition fk_alice : option ProtoKey := Some {| pk_Key := Some "fk-alice" |}.

Definition req_reader :=
  request "alice" (Some "alice") "alice:invite-reader" fk_alice None "invite-reader".
Definition req_follower :=
  request "alice" (Some "alice") "alice:invite-follower" fk_alice None "invite-follower".
Definition req_mixed :=
  request "alice" (Some "alice") "alice:invite-mixed" fk_alice None "invite-mixed".
Definition req_carol :=
  request "alice" None "alice:invite-reader" fk_alice (Some "carol") "invite-reader".
Definition req_nokey := request "alice" (Some "alice") "alice:post" None None "post".
Definition req_badsig := request "alice" (Some "alice") "forged" fk_alice None "post".
Definition req_hashed := request "Qmalice" None "alice:post" fk_alice None "post".

(** Requests with a pointer left nil: no sender, no thread, no record. *)
Definition req_nofrom : PushRecordRequest :=
  {| req_Header := Some {| hdr_From := None; hdr_Signature := "alice:post";
                           hdr_Key := Some "alice"; hdr_FollowKey := fk_alice;
                           hdr_ReadKeyLogID := None |};
     req_ThreadID := Some "t1"; req_LogID := Some "alice"; req_Record := Some "post" |}.
Definition req_nothread : PushRecordRequest :=
  {| req_Header := Some (header "alice" (Some "alice") "alice:post" None None);
     req_ThreadID := None; req_LogID := Some "alice"; req_Record := Some "post" |}.
Definition req_norecord : PushRecordRequest :=
  {| req_Header := Some (header "alice" (Some "alice") "alice:post" fk_alice None);
     req_ThreadID := Some "t1"; req_LogID := Some "alice"; req_Record := None |}.

(** The record a wire record decodes to. *)
Definition record_of (r : pbRecord) : Record_ :=
  {| rec_Cid := "cid:" +:+ r; rec_BlockID := r; rec_PrevID := ""; rec_Sig := "alice" |}.

Definition table {A} (rows : list (string * A)) (e : error) (k : string) : Result A :=
  match List.find (fun row => String.eqb (fst row) k) rows with
  | Some row => Ok (snd row)
  | None => Err e
  end.

Definition find_log (w : node) (id : ThreadID) (lid : PeerID) : option LogInfo :=
  option_map snd
    (List.find (fun e => String.eqb (fst e) id && String.eqb (lg_ID (snd e)) lid) (n_dir w)).

Definition add_addr (addr : Multiaddr) (lg : LogInfo) : LogInfo :=
  {| lg_ID := lg_ID lg; lg_PubKey := lg_PubKey lg; lg_PrivKey := lg_PrivKey lg;
     lg_FollowKey := lg_FollowKey lg; lg_ReadKey := lg_ReadKey lg;
     lg_Addrs := lg_Addrs lg ++ [addr]; lg_Heads := lg_Heads lg |}.

#[export] Instance codec : Codec node := {|
  Record_Marshal r := Ok r;
  Unmarshal := table [("wire-reader", req_reader); ("wire-badsig", req_badsig);
                      ("wire-nofrom", req_nofrom)]
                     "proto: cannot parse";
  RecordFromProto r key :=
    match key with
    | HeaderKey {| pk_Key := None |} => Err "no key"
    | _ => Ok (record_of r)
    end;
  RecordToProto _ rec := Ok (rec_BlockID rec);
  EventFromRecord _ rec := Ok (rec_BlockID rec);
  GetBody _ event _ := Ok event;
  LogsFromNode := table [("invite-reader", doc_reader); ("invite-follower", doc_follower);
                         ("invite-mixed", doc_mixed);
                         ("invite-carol-mixed", doc_carol_mixed)] "not a logs document";
  NewLogs _ _ := Ok "logs-node";
  P_P2P_Name := "p2p";
  NewMultiaddr a := Ok a
|}.

#[export] Instance threads : Threads node := {|
  host_ID := "bob";
  getPrivKey := n_priv;
  store_ThreadInfo w id :=
    Ok {| ti_ID := id;
          ti_Logs := List.map (fun e => lg_ID (snd e))
                       (List.filter (fun e => String.eqb (fst e) id) (n_dir w)) |};
  store_PubKey w id lid := Ok (option_map lg_PubKey (find_log w id lid));
  store_FollowKey w id lid :=
    Ok (match find_log w id lid with Some lg => lg_FollowKey lg | None => None end);
  store_ReadKey w id lid :=
    Ok (match find_log w id lid with Some lg => lg_ReadKey lg | None => None end);
  store_Addrs w id lid :=
    Ok (match find_log w id lid with Some lg => lg_Addrs lg | None => [] end);
  store_AddLog w id lg :=
    (None, {| n_priv := n_priv w; n_dir := (id, lg) :: n_dir w; n_blocks := n_blocks w |});
  store_AddAddr w id lid addr _ :=
    (None, {| n_priv := n_priv w;
              n_dir := List.map (fun e =>
                         if String.eqb (fst e) id && String.eqb (lg_ID (snd e)) lid
                         then (fst e, add_addr addr (snd e)) else e) (n_dir w);
              n_blocks := n_blocks w |});
  bstore_Has w c := Ok (existsb (String.eqb c) (n_blocks w));
  createLog w := (Ok own_log, w);
  AddRecord w body _ _ :=
    (Ok {| rec_Cid := "cid:" +:+ body; rec_BlockID := body; rec_PrevID := "";
           rec_Sig := "bob-log" |},
     {| n_priv := n_priv w; n_dir := n_dir w; n_blocks := ("cid:" +:+ body) :: n_blocks w |});
  PutRecord w rec _ _ :=
    (None, {| n_priv := n_priv w; n_dir := n_dir w; n_blocks := rec_Cid rec :: n_blocks w |})
|}.

Definition msg_self : Message := {| msg_From := "bob"; msg_Data := "wire-reader" |}.
Definition msg_junk : Message := {| msg_From := "alice"; msg_Data := "junk" |}.
Definition msg_badsig : Message := {| msg_From := "alice"; msg_Data := "wire-badsig" |}.
Definition msg_reader : Message := {| msg_From := "alice"; msg_Data := "wire-reader" |}.
Definition msg_nosender : Message := {| msg_From := ""; msg_Data := "wire-reader" |}.
Definition msg_nofrom : Message := {| msg_From := "alice"; msg_Data := "wire-nofrom" |}.

Definition record_a : Record_ := record_of "a".
Definition record_b : Record_ := record_of "b".

(** bob before he has heard of thread t1. *)
Definition bob : node := {| n_priv := Some "sk:bob"; n_dir := []; n_blocks := [] |}.

(** bob, already holding carol's log of thread t1. *)
Definition bob_t1 : node :=
  {| n_priv := Some "sk:bob"; n_dir := [("t1", carol_log)]; n_blocks := [] |}.

(** bob, knowing alice's log of thread t1. *)
Definition bob_alice : node :=
  {| n_priv := Some "sk:bob"; n_dir := [("t1", alice_log)]; n_blocks := [] |}.

(** bob, with the record of the reader invitation in his block store. *)
Definition bob_known : node :=
  {| n_priv := Some "sk:bob"; n_dir := []; n_blocks := ["cid:invite-reader"] |}.

Definition settings_alice : AddSettings :=
  {| set_ThreadID := "t1"; set_KeyLog := "alice"; set_Addrs := ["/p2p/dave"] |}.

Definition settings_carol : AddSettings :=
  {| set_ThreadID := "t1"; set_KeyLog := "carol"; set_Addrs := [] |}.

End Fixture.

(** ** Specifications used by the statements about [records] *)

(** A sequence of [Store] calls, applied from left to right. *)
Definition store_all (cs : list (Cid * Record_)) (r : records) : records :=
  foldl (fun r kv => Store (fst kv) (snd kv) r) r cs.

(** The calls that insert: those whose key was not stored before, [seen]
    being the keys present at the start. *)
Fixpoint first_insertions (seen : gset Cid) (cs : list (Cid * Record_))
  : list (Cid * Record_) :=
  match cs with
  | [] => []
  | (c, v) :: cs' =>
      if decide (c ∈ seen) then first_insertions seen cs'
      else (c, v) :: first_insertions ({[c]} ∪ seen) cs'
  end.

(** ** Kinds of calls *)

Definition is_PutRecord (c : Call) : bool :=
  match c with CPutRecord _ _ _ => true | _ => false end.

Definition is_AddRecord (c : Call) : bool :=
  match c with CAddRecord _ _ _ => true | _ => false end.

Definition is_AddLog (c : Call) : bool :=
  match c with CAddLog _ _ => true | _ => false end.


Definition is_RecordFromProto (c : Call) : bool :=
  match c with CRecordFromProto _ _ => true | _ => false end.

Definition is_FollowKey (c : Call) : bool :=
  match c with CFollowKey _ _ => true | _ => false end.

Definition is_GoPullHistory (c : Call) : bool :=
  match c with CGoPullHistory _ => true | _ => false end.

(** The calls of the two mergers, [handleNewLogs] and [handleLogUpdate]. *)
Definition merge_call (c : Call) : bool :=
  match c with
  | CEventFromRecord _ | CThreadInfo _ | CReadKey _ _ | CGetPrivKey | CGetBody _ _
  | CLogsFromNode _ | CAddLog _ _ | CGoPullHistory _ | CCreateLog
  | CAddAddr _ _ _ _ | CGoSubscribe _ => true
  | _ => false
  end.

(** The calls of [handleNewLogs] up to the decoding of the Logs document. *)
Definition decode_call (c : Call) : bool :=
  match c with
  | CEventFromRecord _ | CThreadInfo _ | CReadKey _ _ | CGetPrivKey | CGetBody _ _
  | CLogsFromNode _ => true
  | _ => false
  end.

(** The calls of the role assignment of [handleNewLogs]. *)
Definition roles_call (c : Call) : bool :=
  match c with
  | CCreateLog | CAddLog _ _ | CAddAddr _ _ _ _ | CGoSubscribe _ => true
  | _ => false
  end.

(** The calls of the loop of [handleNewLogs]. *)
Definition loop_call (c : Call) : bool :=
  match c with
  | CAddLog _ _ | CGoPullHistory _ => true
  | _ => false
  end.

(** The calls [PushRecord] makes up to and including the lookup in the
    block store: they read, and change nothing. *)
Definition unpack_call (c : Call) : bool :=
  match c with
  | CFollowKey _ _ | CRecordFromProto _ _ | CHas _ => true
  | _ => false
  end.

(** The calls of [PushRecord] on a new record, before it is persisted. *)
Definition admit_call (c : Call) : bool :=
  merge_call c ||
  match c with
  | CPubKey _ _ | CNewLogs _ _ | CAddRecord _ _ _ | CLogInfo _ => true
  | _ => false
  end.

(** A log descriptor whose LogID matches its PubKey. *)
Definition matching `{!Crypto} (lg : LogInfo) : Prop :=
  MatchesPublicKey (lg_ID lg) (lg_PubKey lg) = true.

(** The upserts of a run: the descriptors handed to [AddLog], in order. *)
Definition upserts (t : list Call) : list Call := List.filter is_AddLog t.

(** [store.AddLog(id, lg)] for each descriptor of [lgs], in order from the
    node [w], up to the first that returns an error: that error, if any,
    and the node that is left. *)
Fixpoint AddLog_each {W : Type} `{!Threads W} (id : ThreadID) (lgs : list LogInfo) (w : W)
  : option error * W :=
  match lgs with
  | [] => (None, w)
  | lg :: rest =>
      match store_AddLog w id lg with
      | (None, w') => AddLog_each id rest w'
      | (Some e, w') => (Some e, w')
      end
  end.

(** The record [rec], carried by the log [lid], is no objection to the
    descriptor [lg]: [lg] is not the descriptor of [lid], or [rec] verifies
    under its public key. *)
Definition verified_for `{!Crypto} (lid : PeerID) (rec : Record_) (lg : LogInfo) : Prop :=
  ID_String (lg_ID lg) = ID_String lid -> Record_Verify rec (lg_PubKey lg) = None.

(** The calls of the loop of [handleNewLogs] for descriptors it has
    upserted: [AddLog], then the spawn of the history pull. *)
Definition upsert_calls (id : ThreadID) (lgs : list LogInfo) : list Call :=
  flat_map (fun lg => [CAddLog id lg; CGoPullHistory id]) lgs.

(** How the loop of [handleNewLogs] stops at the descriptor [lg], the node
    being [wd]: the error [e] it returns, the node [w'] it leaves and the
    calls [t] it makes for [lg]. The descriptor does not match its key; or
    it is the descriptor of the log that carries the record and the record
    does not verify under its key; or [AddLog] fails. *)
Definition stops_at {W : Type} `{!Crypto} `{!Threads W} (id : ThreadID) (lid : PeerID)
    (rec : Record_) (lg : LogInfo) (wd : W) (e : error) (w' : W) (t : list Call) : Prop :=
  (~ matching lg /\ e = "invalid log" /\ w' = wd /\ t = []) \/
  (matching lg /\ ID_String (lg_ID lg) = ID_String lid /\
   Record_Verify rec (lg_PubKey lg) = Some e /\ w' = wd /\ t = []) \/
  (matching lg /\ verified_for lid rec lg /\
   store_AddLog wd id lg = (Some e, w') /\ t = [CAddLog id lg]).

(** "Atomic rejection", of a run of the new-log merger: it returns an error
    and has changed nothing, no descriptor having been upserted. *)
Definition rejects_atomically {W : Type} `{!Crypto} `{!Codec W} `{!Threads W}
    (id : ThreadID) (lid kid : PeerID) (rec : Record_) (w : W) : Prop :=
  let run := handleNewLogs id lid kid rec w in
  (exists e, result run = Ok (None, None, Some e)) /\
  state run = w /\
  upserts (calls run) = [].

(** "The loop continues to the next message": the run of the loop on the
    message [msg] followed by the deliveries [rest] is the handling of [msg]
    followed by the run of the loop on [rest]. *)
Definition continues_after {W : Type} `{!Crypto} `{!Codec W} `{!Threads W}
    (msg : Message) (rest : list (Result Message)) (w : W) : Prop :=
  let b := subscribe_body (Ok msg) w in
  let r := subscribe_loop rest (state b) in
  subscribe_loop (Ok msg :: rest) w = (result r, state r, calls b ++ calls r).

(** The key under which [PushRecord] decodes: [header.FollowKey], or the
    key the directory holds for the thread and the log of the request. *)
Definition selected_key {W : Type} `{!Threads W} (req : PushRecordRequest) (hdr : Header)
    (w : W) (key : DecryptionKey) : Prop :=
  match hdr_FollowKey hdr with
  | Some fk => key = HeaderKey fk
  | None => exists id lid k,
      req_ThreadID req = Some id /\ req_LogID req = Some lid /\
      store_FollowKey w id lid = Ok (Some k) /\ key = StoreKey k
  end.

(** "The record is decoded under [key]", of the run of [PushRecord] on
    [req] that has made the calls [pre] when it comes to decode the wire
    record [r]: its next call is [cbor.RecordFromProto(r, key)]. When
    that fails the run ends there with its error. When it returns a record
    the run goes on with that record: it is the one looked up in the block
    store and the only one the run persists; and the run neither decodes
    again nor asks the directory for a follow key. *)
Definition decoded_under {W : Type} `{!Crypto} `{!Codec W} `{!Threads W}
    (req : PushRecordRequest) (w : W) (r : pbRecord) (key : DecryptionKey)
    (pre : list Call) : Prop :=
  (forall e, RecordFromProto r key = Err e ->
     PushRecord req w = (Returns (Err e), w, pre ++ [CRecordFromProto r key])) /\
  (forall rec, RecordFromProto r key = Ok rec ->
     exists t,
       calls (PushRecord req w)
       = pre ++ CRecordFromProto r key :: CHas (rec_Cid rec) :: t /\
       forallb (fun c => negb (is_RecordFromProto c) && negb (is_FollowKey c)) t = true /\
       forall rec' id lid, In (CPutRecord rec' id lid) t -> rec' = rec).


(** Every call of every run of [m] is of kind [P]. *)
Definition only {W R} (P : Call -> bool) (m : W -> R * W * list Call) : Prop :=
  forall w, forallb P (calls (m w)) = true.

(** ** The other handlers of the service

    [GetLogs], [PullRecords], the client side of [getLogs], what
    [pullRecords] does with a reply, [pullHistory] and [newService]. The
    dials and the remote calls are not part of the node: where a function
    goes on from what a remote call returned, that is an argument of its
    model. The concurrent pushes of [pushRecord] and pulls of [pullRecords],
    [publish] and [dial] are not modelled. *)

(** pb.Log. [ID], [PubKey], [FollowKey] and [ReadKey] are pointers;
    [Addrs] and [Heads] are slices of values. *)
Record pbLog := {
  pbl_ID : option PeerID;
  pbl_PubKey : option PubKey;
  pbl_FollowKey : option ProtoKey;
  pbl_ReadKey : option ProtoKey;
  pbl_Addrs : list Multiaddr;
  pbl_Heads : list Cid
}.

(** pb.GetLogsRequest: [glr_Header] is [Header.From] when there is a
    header; [ThreadID] is a pointer. *)
Record GetLogsRequest := {
  glr_Header : option PeerID;
  glr_ThreadID : option ThreadID
}.

(** pb.GetLogsReply: [Logs] is a slice of pointers. *)
Record GetLogsReply := { glp_Logs : list (option pbLog) }.

(** pb.PullRecordsRequest: [ThreadID], [LogID] and [Offset] are pointers;
    [Limit] is an int32. *)
Record PullRecordsRequest := {
  prr_Header : option PeerID;
  prr_ThreadID : option ThreadID;
  prr_LogID : option PeerID;
  prr_Offset : option Cid;
  prr_Limit : Z
}.

(** pb.PullRecordsReply *)
Record PullRecordsReply := { prp_Records : list pbRecord }.

(** The operations of threads.go and of the thread store that these
    handlers read. *)
Class ThreadsLocal (W : Type) := {
  threads_getLogs : W -> ThreadID -> Result (list LogInfo);
  threads_pullLocal : W -> ThreadID -> PeerID -> Cid -> Z -> Result (list Record_);
  store_Threads : W -> Result (list ThreadID)
}.

Section ServiceMore.
Context {W : Type} `{!Crypto} `{!Codec W} `{!Threads W} `{!ThreadsLocal W}.

(** A read of the node that is not recorded. *)
Definition peek {A} (f : W -> Result A) : M W A := fun w => (f w, w, []).

(** A delivery of [sub.Next] that the loop of [subscribe] takes to be from
    this peer. *)
Definition from_self (item : Result Message) : bool :=
  match item with
  | Err _ => false
  | Ok msg =>
      match IDFromBytes (msg_From msg) with
      | Err _ => false
      | Ok from => String.eqb (ID_String from) (ID_String host_ID)
      end
  end.

(** A delivery of [sub.Next] on which the loop of [subscribe] breaks: an
    error of [sub.Next], or a message whose sender does not parse. *)
Definition fatal (item : Result Message) : bool :=
  match item with
  | Err _ => true
  | Ok msg =>
      match IDFromBytes (msg_From msg) with
      | Err _ => true
      | Ok _ => false
      end
  end.

(** The pb.Log that [GetLogs] makes of a log. *)
Definition GetLogs_log (l : LogInfo) : option pbLog :=
  Some {| pbl_ID := Some (lg_ID l);
          pbl_PubKey := Some (lg_PubKey l);
          pbl_FollowKey := Some {| pk_Key := lg_FollowKey l |};
          pbl_ReadKey := Some {| pk_Key := lg_ReadKey l |};
          pbl_Addrs := lg_Addrs l;
          pbl_Heads := lg_Heads l |}.

(** [GetLogs] receives a get logs request. It reads the node only, and
    reads [req.ThreadID.ID] without a test of [ThreadID]. *)
Definition GetLogs (req : GetLogsRequest) (w : W) : Outcome GetLogsReply :=
  match glr_ThreadID req with
  | None => Panics
  | Some tid =>
      match threads_getLogs w tid with
      | Err e => Returns (Err e)
      | Ok lgs => Returns (Ok {| glp_Logs := map GetLogs_log lgs |})
      end
  end.

(** The request [getLogs] sends. *)
Definition getLogs_request (tid : ThreadID) : GetLogsRequest :=
  {| glr_Header := Some host_ID; glr_ThreadID := Some tid |}.

(** The thread.LogInfo that [getLogs] makes of a pb.Log [l] of the reply:
    it reads [l.Addrs], [l.Heads], [l.ID.ID], [l.PubKey.PubKey],
    [l.FollowKey.Key] and [l.ReadKey.Key] without a test of any of these
    pointers; [None] is the panic on one that is nil. *)
Definition getLogs_log (l : option pbLog) : option LogInfo :=
  match l with
  | Some {| pbl_ID := Some id; pbl_PubKey := Some pk; pbl_FollowKey := Some fk;
            pbl_ReadKey := Some rk; pbl_Addrs := addrs; pbl_Heads := heads |} =>
      Some {| lg_ID := id;
              lg_PubKey := pk;
              lg_PrivKey := None;
              lg_FollowKey := pk_Key fk;
              lg_ReadKey := pk_Key rk;
              lg_Addrs := addrs;
              lg_Heads := heads |}
  | _ => None
  end.

(** The loop of [getLogs] over [reply.Logs]. *)
Fixpoint getLogs_logs (ls : list (option pbLog)) : Outcome (list LogInfo) :=
  match ls with
  | [] => Returns (Ok [])
  | l :: rest =>
      match getLogs_log l with
      | None => Panics
      | Some lg =>
          match getLogs_logs rest with
          | Returns (Ok lgs) => Returns (Ok (lg :: lgs))
          | o => o
          end
      end
  end.

(** [getLogs] in a thread, from the answer to its request on: [answer] is
    what the dial and [client.GetLogs] returned. *)
Definition getLogs (answer : Result GetLogsReply) : Outcome (list LogInfo) :=
  match answer with
  | Err e => Returns (Err e)
  | Ok reply => getLogs_logs (glp_Logs reply)
  end.

(** The loop of [PullRecords] over the local records. *)
Fixpoint PullRecords_records (w : W) (recs : list Record_) : Result (list pbRecord) :=
  match recs with
  | [] => Ok []
  | r :: rest =>
      match RecordToProto w r with
      | Err e => Err e
      | Ok pb =>
          match PullRecords_records w rest with
          | Err e => Err e
          | Ok pbs => Ok (pb :: pbs)
          end
      end
  end.

(** [PullRecords] receives a pull records request. It reads the node
    only, and reads [req.ThreadID.ID], [req.LogID.ID] and [req.Offset.Cid],
    the arguments of [pullLocal], without a test of these pointers. *)
Definition PullRecords (req : PullRecordsRequest) (w : W) : Outcome PullRecordsReply :=
  match prr_ThreadID req, prr_LogID req, prr_Offset req with
  | Some tid, Some lid, Some offset =>
      match threads_pullLocal w tid lid offset (prr_Limit req) with
      | Err e => Returns (Err e)
      | Ok recs =>
          match PullRecords_records w recs with
          | Err e => Returns (Err e)
          | Ok pbrecs => Returns (Ok {| prp_Records := pbrecs |})
          end
      end
  | _, _, _ => Panics
  end.

(** What a goroutine of [pullRecords] does with the records of a reply:
    the [Store] calls it makes on the shared aggregator, in order, and the
    error it logs when a record does not decode, which ends it. *)
Fixpoint pullRecords_stores (key : DecryptionKey) (rs : list pbRecord)
  : list (Cid * Record_) * option error :=
  match rs with
  | [] => ([], None)
  | r :: rest =>
      match RecordFromProto r key with
      | Err e => ([], Some e)
      | Ok rec =>
          match pullRecords_stores key rest with
          | (cs, oe) => ((rec_Cid rec, rec) :: cs, oe)
          end
      end
  end.

(** The loop of [pullHistory] over the records pulled. *)
Fixpoint pullHistory_put (id : ThreadID) (lid : PeerID) (recs : list Record_)
  : M W unit :=
  match recs with
  | [] => ret tt
  | r :: rest =>
      let* _ := update (CPutRecord r id lid) (fun w => PutRecord w r id lid) in
      pullHistory_put id lid rest
  end.

(** [pullHistory] downloads a log's entire history: [pulled] is what
    [s.pullRecords(ctx, id, lid, cid.Undef, MaxPullLimit)] returned. *)
Definition pullHistory (id : ThreadID) (lid : PeerID) (pulled : Result (list Record_))
  : M W unit :=
  let* recs := lift pulled in
  pullHistory_put id lid recs.

(** The loop of [newService] over the threads of the store. *)
Fixpoint newService_subscribe (ts : list ThreadID) : M W unit :=
  match ts with
  | [] => ret tt
  | id :: rest =>
      let* _ := emit (CGoSubscribe id) in
      newService_subscribe rest
  end.

(** [newService] creates a new threads network service: [ps] is the error
    of [pubsub.NewGossipSub], if any. *)
Definition newService (ps : option error) : M W unit :=
  let* _ := check ps in
  let* ts := peek store_Threads in
  newService_subscribe ts.
End ServiceMore.

(** The test node, for these handlers. *)
Module FixtureLocal.
Import Fixture.

#[export] Instance local : ThreadsLocal node := {|
  threads_getLogs w id :=
    Ok (List.map snd (List.filter (fun e => String.eqb (fst e) id) (n_dir w)));
  threads_pullLocal w _ _ _ limit :=
    Ok (firstn (Z.to_nat limit) (List.map (fun c => record_of c) (n_blocks w)));
  store_Threads w := Ok (List.nodup String.string_dec (List.map fst (n_dir w)))
|}.

(** bob, holding alice's log (with a host key of hers) and carol's. *)
Definition alice_full_log : LogInfo :=
  {| lg_ID := "alice"; lg_PubKey := "alice"; lg_PrivKey := Some "sk:alice";
     lg_FollowKey := Some "fk-alice"; lg_ReadKey := None;
     lg_Addrs := ["/p2p/alice"; "/p2p/bob"]; lg_Heads := ["cid:post"] |}.

Definition bob_two : node :=
  {| n_priv := Some "sk:bob"; n_dir := [("t1", alice_full_log); ("t1", carol_log)];
     n_blocks := ["post"; "reply"] |}.

(** bob without a host key. *)
Definition bob_nokey : node := {| n_priv := None; n_dir := []; n_blocks := [] |}.

Definition pull_one : PullRecordsRequest :=
  {| prr_Header := Some "alice"; prr_ThreadID := Some "t1"; prr_LogID := Some "alice";
     prr_Offset := Some ""; prr_Limit := 1 |}.

(** The header of [req_nokey]. *)
Definition hdr_nokey : Header := header "alice" (Some "alice") "alice:post" None None.
End FixtureLocal.

(** * Properties *)

(** ** Runs *)

Section Runs.
Context {W : Type}.
Implicit Types (w : W) (P : Call -> bool).

Lemma bind_run {A B} (m : M W A) (k : A -> M W B) w :
  bind m k w =
  match result (m w) with
  | Ok a => (result (k a (state (m w))), state (k a (state (m w))),
             calls (m w) ++ calls (k a (state (m w))))
  | Err e => (Err e, state (m w), calls (m w))
  end.
Proof.
  unfold bind, result, state, calls.
  destruct (m w) as [[[a|e] w1] t1]; simpl; [|done].
  by destruct (k a w1) as [[r w2] t2].
Qed.

Lemma calls_bind {A B} (m : M W A) (k : A -> M W B) w :
  calls (bind m k w) =
  calls (m w) ++ match result (m w) with
                 | Ok a => calls (k a (state (m w)))
                 | Err _ => []
                 end.
Proof.
  rewrite bind_run. destruct (result (m w)); [done|]. by rewrite app_nil_r.
Qed.

Lemma only_ret {A} P (a : A) : only P (ret a : M W A).
Proof. done. Qed.

Lemma only_fail {A} P e : only P (fail e : M W A).
Proof. done. Qed.

Lemma only_lift {A} P (r : Result A) : only P (lift r : M W A).
Proof. done. Qed.

Lemma only_check P oe : only P (check oe : M W unit).
Proof. done. Qed.

Lemma only_call {A} P c (r : Result A) : P c = true -> only P (call c r : M W A).
Proof. intros Hc w. simpl. by rewrite Hc. Qed.

Lemma only_query {A} P c (f : W -> Result A) : P c = true -> only P (query c f).
Proof. intros Hc w. simpl. by rewrite Hc. Qed.

Lemma only_update P c (f : W -> option error * W) : P c = true -> only P (update c f).
Proof.
  intros Hc w. unfold update, calls. destruct (f w) as [[e|] w']; simpl; by rewrite Hc.
Qed.

Lemma only_invoke {A} P c (f : W -> Result A * W) : P c = true -> only P (invoke c f).
Proof.
  intros Hc w. unfold invoke, calls. destruct (f w) as [r w']; simpl; by rewrite Hc.
Qed.

Lemma only_emit P c : P c = true -> only P (emit c : M W unit).
Proof. intros Hc w. simpl. by rewrite Hc. Qed.

Lemma only_bind {A B} P (m : M W A) (k : A -> M W B) :
  only P m -> (forall a, only P (k a)) -> only P (bind m k).
Proof.
  intros Hm Hk w. rewrite bind_run. specialize (Hm w).
  destruct (result (m w)) as [a|e]; unfold calls at 1; simpl; [|done].
  rewrite forallb_app, Hm. apply Hk.
Qed.

Lemma only_attempt {A} P (m : M W A) : only P m -> only P (attempt m).
Proof.
  intros Hm w. specialize (Hm w). unfold attempt, calls in *.
  by destruct (m w) as [[r w'] t].
Qed.

Lemma only_or_return {A B} P (m : M W A) (h : error -> B) (k : A -> M W B) :
  only P m -> (forall a, only P (k a)) -> only P (or_return m h k).
Proof.
  intros Hm Hk w. specialize (Hm w). unfold or_return, calls in *.
  destruct (m w) as [[[a|e] w1] t1]; simpl in *; [|done].
  specialize (Hk a w1). destruct (k a w1) as [[r w2] t2]; simpl in *.
  by rewrite forallb_app, Hm, Hk.
Qed.

Lemma only_weaken {A} P Q (m : M W A) :
  (forall c, P c = true -> Q c = true) -> only P m -> only Q m.
Proof.
  intros HPQ Hm w. specialize (Hm w).
  rewrite forallb_forall in *. eauto.
Qed.
End Runs.

(** One step of a proof that a computation makes calls of one kind only. *)
Ltac only_step :=
  lazymatch goal with
  | |- only _ (ret _) => apply only_ret
  | |- only _ (fail _) => apply only_fail
  | |- only _ (lift _) => apply only_lift
  | |- only _ (check _) => apply only_check
  | |- only _ (call _ _) => apply only_call; reflexivity
  | |- only _ (query _ _) => apply only_query; reflexivity
  | |- only _ (update _ _) => apply only_update; reflexivity
  | |- only _ (invoke _ _) => apply only_invoke; reflexivity
  | |- only _ (emit _) => apply only_emit; reflexivity
  | |- only _ (attempt _) => apply only_attempt
  | |- only _ (bind _ _) => apply only_bind; [|intros ?]
  | |- only _ (or_return _ _ _) => apply only_or_return; [|intros ?]
  | |- only _ (match ?x with _ => _ end) => destruct x
  | |- only _ (let _ := _ in _) => cbv zeta
  end.

(** ** The records aggregator *)

Section Records.
Implicit Types (r : records) (cs : list (Cid * Record_)) (seen : gset Cid).

Lemma Store_known r key value :
  is_Some (records_m r !! key) -> Store key value r = r.
Proof. intros [v Hv]. unfold Store. by rewrite Hv. Qed.

Lemma Store_fresh r key value :
  records_m r !! key = None ->
  Store key value r = {| records_m := <[key := value]> (records_m r);
                         records_s := records_s r ++ [value] |}.
Proof. intros Hk. unfold Store. by rewrite Hk. Qed.

Lemma store_all_List cs : forall r,
  List_ (store_all cs r)
  = records_s r ++ map snd (first_insertions (dom (records_m r)) cs).
Proof.
  induction cs as [|[c v] cs IH]; intros r; simpl.
  - by rewrite app_nil_r.
  - unfold store_all in *. simpl. rewrite IH. unfold Store.
    destruct (records_m r !! c) as [v'|] eqn:Hc.
    + rewrite decide_True; [done|]. apply elem_of_dom. eauto.
    + rewrite decide_False; [|by apply not_elem_of_dom].
      simpl. rewrite dom_insert_L, <- app_assoc. done.
Qed.

Lemma store_all_dom cs : forall r,
  dom (records_m (store_all cs r)) = dom (records_m r) ∪ list_to_set (map fst cs).
Proof.
  induction cs as [|[c v] cs IH]; intros r; simpl.
  - set_solver.
  - unfold store_all in *. simpl. rewrite IH. unfold Store.
    destruct (records_m r !! c) as [v'|] eqn:Hc; simpl.
    + assert (c ∈ dom (records_m r)) by (apply elem_of_dom; eauto). set_solver.
    + rewrite dom_insert_L. set_solver.
Qed.

Lemma first_insertions_keys cs : forall seen c,
  c ∈ map fst (first_insertions seen cs) <-> c ∈ map fst cs /\ c ∉ seen.
Proof.
  induction cs as [|[c0 v] cs IH]; intros seen c; simpl.
  - set_solver.
  - destruct (decide (c0 ∈ seen)); simpl.
    + rewrite IH. set_solver.
    + rewrite elem_of_cons, IH. destruct (decide (c = c0)); set_solver.
Qed.

Lemma first_insertions_NoDup cs : forall seen,
  NoDup (map fst (first_insertions seen cs)).
Proof.
  induction cs as [|[c0 v] cs IH]; intros seen; simpl.
  - constructor.
  - destruct (decide (c0 ∈ seen)); simpl; [apply IH|].
    constructor; [|apply IH].
    rewrite first_insertions_keys. set_solver.
Qed.

Lemma first_insertions_sublist cs : forall seen,
  sublist (first_insertions seen cs) cs.
Proof.
  induction cs as [|[c0 v] cs IH]; intros seen; simpl.
  - constructor.
  - destruct (decide (c0 ∈ seen)).
    + apply sublist_cons. apply IH.
    + apply sublist_skip. apply IH.
Qed.

(** An entry is kept exactly when it is the first call with its key. *)
Lemma first_insertions_first cs : forall seen c v,
  (c, v) ∈ first_insertions seen cs <->
  ((c ∉ seen) /\
   exists i, cs !! i = Some (c, v) /\
             forall j v', (j < i)%nat -> cs !! j <> Some (c, v')).
Proof.
  induction cs as [|[c0 v0] cs IH]; intros seen c v; simpl.
  - split; [by intros ?%elem_of_nil|]. intros (_ & i & Hi & _). by destruct i.
  - destruct (decide (c0 ∈ seen)) as [Hin|Hnin].
    + rewrite IH. split.
      * intros (Hc & i & Hi & Hfirst). split; [done|].
        exists (S i). split; [done|]. intros [|j] v' Hj; simpl.
        -- intros [= -> ->]. done.
        -- apply Hfirst. lia.
      * intros (Hc & [|i] & Hi & Hfirst); simpl in Hi.
        -- injection Hi as -> ->. done.
        -- split; [done|]. exists i. split; [done|].
           intros j v' Hj. apply (Hfirst (S j) v'). lia.
    + rewrite elem_of_cons, IH. split.
      * intros [[= -> ->] | (Hc & i & Hi & Hfirst)].
        -- split; [done|]. exists 0%nat. split; [done|]. intros; lia.
        -- split; [set_solver|]. exists (S i). split; [done|].
           intros [|j] v' Hj; simpl.
           ++ intros [= -> ->]. set_solver.
           ++ apply Hfirst. lia.
      * intros (Hc & [|i] & Hi & Hfirst); simpl in Hi.
        -- left. congruence.
        -- right. split.
           ++ intros [->%elem_of_singleton | ?]%elem_of_union; [|done].
              apply (Hfirst 0%nat v0); [lia | done].
           ++ exists i. split; [done|].
              intros j v' Hj. apply (Hfirst (S j) v'). lia.
Qed.

(** C10. [Store key value] leaves the aggregator as it is when [key] is
    already a key of the map, and otherwise appends [value] to the slice
    and adds [key] to the map. Hence, after any sequence [cs] of [Store]
    calls on a new aggregator, [List] returns the values of the calls that
    came first for their key: one per distinct key stored (the keys of the
    map), in the order of those first calls. *)
Theorem records_Store_List r key value cs :
  (is_Some (records_m r !! key) -> Store key value r = r) /\
  (records_m r !! key = None ->
     records_m (Store key value r) = <[key := value]> (records_m r) /\
     records_s (Store key value r) = records_s r ++ [value]) /\
  let kept := first_insertions ∅ cs in
  List_ (store_all cs newRecords) = map snd kept /\
  sublist kept cs /\
  NoDup (map fst kept) /\
  (forall c, c ∈ map fst kept <-> c ∈ dom (records_m (store_all cs newRecords))) /\
  (forall c, c ∈ map fst kept <-> c ∈ map fst cs) /\
  (forall c v, (c, v) ∈ kept <->
     exists i, cs !! i = Some (c, v) /\
               forall j v', (j < i)%nat -> cs !! j <> Some (c, v')).
Proof.
  split; [apply Store_known|]. split.
  { intros Hk. by rewrite (Store_fresh _ _ _ Hk). }
  intros kept. subst kept. repeat split.
  - rewrite store_all_List. simpl. by rewrite dom_empty_L.
  - apply first_insertions_sublist.
  - apply first_insertions_NoDup.
  - rewrite first_insertions_keys, store_all_dom. simpl.
    rewrite dom_empty_L. set_solver.
  - rewrite store_all_dom, first_insertions_keys. simpl.
    rewrite dom_empty_L. set_solver.
  - rewrite first_insertions_keys. set_solver.
  - rewrite first_insertions_keys. set_solver.
  - intros H. apply first_insertions_first in H. tauto.
  - intros H. apply first_insertions_first. split; [set_solver | done].
Qed.
End Records.

(** ** The calls of the mergers *)

Section MergerCalls.
Context {W : Type} `{!Crypto} `{!Codec W} `{!Threads W}.
Implicit Types (w : W) (id : ThreadID) (lid kid : PeerID) (rec : Record_).

Lemma only_named_results P (body : M W NewLogsResult) :
  only P body -> only P (named_results body).
Proof.
  intros Hb w. specialize (Hb w). unfold named_results, calls in *.
  by destruct (body w) as [[[a|e] w'] t].
Qed.

Lemma calls_named_results (body : M W NewLogsResult) w :
  calls (named_results body w) = calls (body w).
Proof. unfold named_results, calls. by destruct (body w) as [[[a|e] w'] t]. Qed.

Lemma handleNewLogs_loop_only id lid rec lgs :
  only loop_call (handleNewLogs_loop id lid rec lgs).
Proof.
  induction lgs as [|lg lgs IH]; simpl; repeat only_step; exact IH.
Qed.

Lemma handleLogUpdate_loop_only id lid rec lgs :
  only is_AddLog (handleLogUpdate_loop id lid rec lgs).
Proof.
  induction lgs as [|lg lgs IH]; simpl; repeat only_step; exact IH.
Qed.

Lemma handleLogUpdate_only id lid rec :
  only merge_call (handleLogUpdate id lid rec).
Proof.
  unfold handleLogUpdate. repeat only_step.
  eapply only_weaken; [|apply handleLogUpdate_loop_only]. by intros [].
Qed.

Lemma handleNewLogs_only id lid kid rec :
  only merge_call (handleNewLogs id lid kid rec).
Proof.
  unfold handleNewLogs, handleNewLogs_logs, handleNewLogs_roles.
  apply only_named_results. repeat only_step.
  eapply only_weaken; [|apply handleNewLogs_loop_only]. by intros [].
Qed.
End MergerCalls.

(** ** PushRecord *)

(** Case analysis on the innermost scrutinee of the goal. *)
Ltac case_inner :=
  match goal with
  | |- context [match ?x with _ => _ end] =>
      lazymatch x with
      | context [match _ with _ => _ end] => fail
      | _ => destruct x eqn:?
      end
  end.

Section PushRecordProps.
Context {W : Type} `{!Crypto} `{!Codec W} `{!Threads W}.
Implicit Types (w : W) (req : PushRecordRequest) (hdr : Header) (rec : Record_).
Implicit Types (id : ThreadID) (lid : PeerID).

Lemma PushRecord_new_only id lid hdr rec reply :
  only (fun c => admit_call c || is_PutRecord c) (PushRecord_new id lid hdr rec reply).
Proof.
  unfold PushRecord_new. repeat only_step.
  all: eapply only_weaken;
    [|first [apply handleNewLogs_only | apply handleLogUpdate_only]].
  all: intros c Hc; unfold admit_call; by rewrite Hc.
Qed.

(** On a new record, [PutRecord] comes last, if at all, after the calls
    of the merger and of the advertisement. *)
Lemma PushRecord_new_calls id lid hdr rec reply w :
  exists pre post,
    calls (PushRecord_new id lid hdr rec reply w) = pre ++ post /\
    forallb admit_call pre = true /\
    (post = [] \/ post = [CPutRecord rec id lid]).
Proof.
  unfold PushRecord_new.
  rewrite bind_run. cbn [query result state calls fst snd].
  destruct (store_PubKey w id lid) as [logpk|e].
  2: { exists [CPubKey id lid], []. auto. }
  rewrite bind_run.
  match goal with
  | |- context [calls (?X w)] => assert (HX : only admit_call X)
  end.
  { repeat only_step.
    all: eapply only_weaken;
      [|first [apply handleNewLogs_only | apply handleLogUpdate_only]].
    all: intros c Hc; unfold admit_call; by rewrite Hc. }
  specialize (HX w).
  match type of HX with
  | forallb _ (calls ?r) = true => destruct r as [[[reply'|e] w1] t1]
  end; cbn [result state calls fst snd] in *.
  2: { exists (CPubKey id lid :: t1), [].
       rewrite app_nil_r. auto. }
  exists (CPubKey id lid :: t1).
  unfold bind, update, ret.
  destruct (PutRecord w1 rec id lid) as [[e|] w2];
    cbn [result state calls fst snd].
  all: eexists; split; [reflexivity|]; split; [exact HX|]; rewrite ?app_nil_r; auto.
Qed.

(** A run that succeeds on a new record ends with a successful
    [PutRecord] of that record. *)
Lemma PushRecord_new_persists id lid hdr rec reply w reply' :
  result (PushRecord_new id lid hdr rec reply w) = Ok reply' ->
  exists w1, PutRecord w1 rec id lid
             = (None, state (PushRecord_new id lid hdr rec reply w)).
Proof.
  unfold PushRecord_new, bind, lift, check, query, call, ret, fail, update, invoke,
    attempt, emit, result, state.
  repeat (case_inner; simpl in *; try discriminate); intros _.
  all: eauto.
Qed.

(** A successful run of [PushRecord] found the record in the block
    store, or has put it there. *)
Lemma PushRecord_success req w reply :
  result (PushRecord req w) = Returns (Ok reply) ->
  exists hdr pk r key rec,
    req_Header req = Some hdr /\
    requestPubKey hdr = Returns (Ok pk) /\
    req_Record req = Some r /\
    verifyRequestSignature r pk (hdr_Signature hdr) = None /\
    selected_key req hdr w key /\
    recordFromProto r key = Ok rec /\
    ((bstore_Has w (rec_Cid rec) = Ok true /\ state (PushRecord req w) = w) \/
     exists id lid w1,
       req_ThreadID req = Some id /\ req_LogID req = Some lid /\
       PutRecord w1 rec id lid = (None, state (PushRecord req w))).
Proof.
  pose proof (fun id lid hdr rec => PushRecord_new_persists id lid hdr rec {| NewAddr := None |} w)
    as Hnew.
  unfold selected_key.
  unfold PushRecord, bindP, pure, deref, returns, retP, failP, check, query, call,
    result, state in *.
  repeat (case_inner; simpl in *; try discriminate); intros Hres.
  all: simplify_eq.
  all: repeat match goal with
         | Hk : option_map StoreKey ?x = Some _ |- _ =>
             destruct x; simpl in Hk; [injection Hk as <- | discriminate Hk]
         end.
  all: eexists _, _, _, _, _.
  all: repeat match goal with Hq : hdr_FollowKey _ = _ |- _ => rewrite Hq end.
  all: repeat (split; [solve [eauto 10]|]).
  all: try (left; split; [eassumption|reflexivity]).
  all: right; match goal with
              | Hn : PushRecord_new ?i ?l ?h ?r _ _ = _ |- _ =>
                  specialize (Hnew i l h r reply); rewrite Hn in Hnew; simpl in Hnew;
                  destruct (Hnew eq_refl) as [w1 Hw1]
              end; eauto 10.
Qed.

(** The run of [PushRecord] on a record that is in the block store. *)
Lemma PushRecord_dedup_run req w hdr pk r key rec :
  req_Header req = Some hdr ->
  requestPubKey hdr = Returns (Ok pk) ->
  req_Record req = Some r ->
  verifyRequestSignature r pk (hdr_Signature hdr) = None ->
  selected_key req hdr w key ->
  recordFromProto r key = Ok rec ->
  bstore_Has w (rec_Cid rec) = Ok true ->
  PushRecord req w =
  (Returns (Ok {| NewAddr := None |}), w,
   match hdr_FollowKey hdr, req_ThreadID req, req_LogID req with
   | None, Some id, Some lid => [CFollowKey id lid]
   | _, _, _ => []
   end ++ [CRecordFromProto r key; CHas (rec_Cid rec)]).
Proof.
  intros Hh Hpk Hr Hsig Hkey Hrec Hhas.
  unfold selected_key in Hkey.
  unfold PushRecord, bindP, pure, deref, returns, retP, failP, check, query, call.
  rewrite Hh, Hpk, Hr, Hsig.
  destruct (hdr_FollowKey hdr) as [fk|].
  - subst key. by rewrite Hrec, Hhas.
  - destruct Hkey as (id & lid & k & -> & -> & Hk & ->). rewrite Hk. simpl.
    by rewrite Hrec, Hhas.
Qed.

(** C1. When the block store already has the record ([bstore.Has] returns
    true for the CID that [PushRecord] looks up), [PushRecord] returns the
    empty reply and leaves the node as it is, and all it has called are the
    reads that lead to the lookup: neither merger, no [PutRecord], no
    [AddRecord]. Hence a second push of a request that succeeded changes
    nothing, [PutRecord] being what puts a record in the block store, as
    long as the second push resolves the same follow key. *)
Theorem PushRecord_known_record_idempotent req w :
  (forall c,
     In (CHas c) (calls (PushRecord req w)) ->
     bstore_Has w c = Ok true ->
     result (PushRecord req w) = Returns (Ok {| NewAddr := None |}) /\
     state (PushRecord req w) = w /\
     forallb unpack_call (calls (PushRecord req w)) = true) /\
  (forall reply,
     (forall w0 r id lid w1,
        PutRecord w0 r id lid = (None, w1) -> bstore_Has w1 (rec_Cid r) = Ok true) ->
     result (PushRecord req w) = Returns (Ok reply) ->
     (forall hdr id lid,
        req_Header req = Some hdr -> hdr_FollowKey hdr = None ->
        req_ThreadID req = Some id -> req_LogID req = Some lid ->
        store_FollowKey (state (PushRecord req w)) id lid = store_FollowKey w id lid) ->
     let w1 := state (PushRecord req w) in
     result (PushRecord req w1) = Returns (Ok {| NewAddr := None |}) /\
     state (PushRecord req w1) = w1 /\
     forallb unpack_call (calls (PushRecord req w1)) = true).
Proof.
  split.
  - intros c Hin Hhas.
    pose proof (fun id lid hdr rec reply => PushRecord_new_only id lid hdr rec reply w) as Hnew.
    revert Hin.
    unfold PushRecord, bindP, pure, deref, returns, retP, failP, check, query, call,
      result, state, calls in *.
    repeat (case_inner; simpl in *; try tauto).
    all: intros Hin.
    all: repeat match goal with
           | Hd : _ \/ _ |- _ => destruct Hd
           | Hf : False |- _ => destruct Hf
           | He : CHas _ = CHas _ |- _ => injection He as <-
           | He : _ = CHas _ |- _ => discriminate He
           end; try congruence.
    all: match goal with
         | Hn : PushRecord_new ?i ?l ?h ?r ?rp _ = _ |- _ =>
             specialize (Hnew i l h r rp); rewrite Hn in Hnew; simpl in Hnew
         end.
    all: rewrite forallb_forall in Hnew.
    all: match goal with Hi : In _ _ |- _ => apply Hnew in Hi; discriminate Hi end.
  - intros reply Hput Hres Hfk w1.
    destruct (PushRecord_success _ _ _ Hres)
      as (hdr & pk & r & key & rec & Hh & Hpk & Hr & Hsig & Hkey & Hrec & Hst).
    assert (Hhas : bstore_Has w1 (rec_Cid rec) = Ok true).
    { destruct Hst as [[Hhas Hw] | (id & lid & w0 & _ & _ & Hw0)].
      - subst w1. by rewrite Hw.
      - eapply Hput, Hw0. }
    assert (Hkey' : selected_key req hdr w1 key).
    { unfold selected_key in *. specialize (Hfk hdr).
      destruct (hdr_FollowKey hdr); [done|].
      destruct Hkey as (id & lid & k & Hid & Hlid & Hk & ->).
      exists id, lid, k. repeat split; try done.
      subst w1. by rewrite (Hfk id lid Hh eq_refl Hid Hlid). }
    rewrite (PushRecord_dedup_run req w1 hdr pk r key rec Hh Hpk Hr Hsig Hkey' Hrec Hhas).
    unfold result, state, calls. simpl. repeat split.
    by destruct (hdr_FollowKey hdr), (req_ThreadID req), (req_LogID req).
Qed.



Lemma verifyRequestSignature_None (rec : pbRecord) pk sig :
  verifyRequestSignature rec pk sig = None <->
  exists payload, Record_Marshal rec = Ok payload /\
                  PubKey_Verify pk payload sig = (true, None).
Proof.
  unfold verifyRequestSignature. destruct (Record_Marshal rec) as [payload|e].
  - destruct (PubKey_Verify pk payload sig) as [[] [e|]] eqn:Hv; simpl; split.
    all: try discriminate; eauto.
    all: intros (? & [= <-] & Hv'); rewrite Hv in Hv'; discriminate.
  - split; [discriminate | by intros (? & [=] & _)].
Qed.

(** The run of [PushRecord] from the decoding of the wire record on. *)
Lemma PushRecord_decoded req w hdr pk r key pre :
  req_Header req = Some hdr ->
  requestPubKey hdr = Returns (Ok pk) ->
  req_Record req = Some r ->
  verifyRequestSignature r pk (hdr_Signature hdr) = None ->
  match hdr_FollowKey hdr with
  | Some fk => key = HeaderKey fk /\ pre = []
  | None => exists id lid k,
      req_ThreadID req = Some id /\ req_LogID req = Some lid /\
      store_FollowKey w id lid = Ok (Some k) /\ key = StoreKey k /\
      pre = [CFollowKey id lid]
  end ->
  decoded_under req w r key pre.
Proof.
  intros Hh Hpk Hr Hsig Hkey.
  pose proof (fun id lid rec reply => PushRecord_new_calls id lid hdr rec reply w) as Hnew.
  assert (Hweak : forall l,
             forallb admit_call l = true ->
             forallb (fun c => negb (is_RecordFromProto c) && negb (is_FollowKey c)) l = true).
  { intros l Hl. rewrite forallb_forall in *. intros c Hc.
    specialize (Hl c Hc). by destruct c. }
  assert (Hput : forall l rec' id lid,
             forallb admit_call l = true -> ~ In (CPutRecord rec' id lid) l).
  { intros l rec' id lid Hl Hin. rewrite forallb_forall in Hl.
    apply Hl in Hin. discriminate Hin. }
  assert (Hrest : forall id lid rec reply,
             let t := calls (PushRecord_new id lid hdr rec reply w) in
             forallb (fun c => negb (is_RecordFromProto c) && negb (is_FollowKey c)) t = true /\
             forall rec' id' lid', In (CPutRecord rec' id' lid') t -> rec' = rec).
  { intros id lid rec reply t. subst t.
    destruct (Hnew id lid rec reply) as (pre' & post & -> & Hpre & Hpost).
    rewrite forallb_app, (Hweak _ Hpre). split.
    - by destruct Hpost as [-> | ->].
    - intros rec' id' lid' [Hin|Hin]%in_app_iff; [by apply Hput in Hin|].
      destruct Hpost as [-> | ->]; [destruct Hin|].
      destruct Hin as [[= -> _ _]|[]]. reflexivity. }
  clear Hnew Hweak Hput.
  unfold decoded_under.
  unfold PushRecord, bindP, pure, deref, returns, retP, failP, check, query, call, calls,
    recordFromProto in *.
  rewrite Hh, Hpk, Hr, Hsig.
  destruct (hdr_FollowKey hdr) as [fk|].
  - destruct Hkey as [-> ->]. simpl. split.
    + intros e ->. reflexivity.
    + intros rec ->. simpl.
      repeat (case_inner; simpl in * ).
      all: eexists; (split; [reflexivity|]).
      all: try (split; [reflexivity | by intros ? ? ? []]).
      match goal with
      | Hn : PushRecord_new ?i ?l _ ?rc ?rp _ = _ |- _ =>
          specialize (Hrest i l rc rp); rewrite Hn in Hrest; exact Hrest
      end.
  - destruct Hkey as (id & lid & k & -> & -> & Hk & -> & ->). rewrite Hk. simpl. split.
    + intros e ->. reflexivity.
    + intros rec ->. simpl.
      repeat (case_inner; simpl in * ).
      all: eexists; (split; [reflexivity|]).
      all: try (split; [reflexivity | by intros ? ? ? []]).
      match goal with
      | Hn : PushRecord_new ?i ?l _ ?rc ?rp _ = _ |- _ =>
          specialize (Hrest i l rc rp); rewrite Hn in Hrest; exact Hrest
      end.
Qed.

(** C5. A request that passed the signature check is decoded under
    [header.FollowKey] when that is set, without asking the directory;
    otherwise under the key [directory.FollowKey(threadID, logID)] returns,
    [threadID] and [logID] being read through [req.ThreadID] and
    [req.LogID]: when one of the two pointers is nil the handler panics
    there, before any call. Decoding is by [cbor.RecordFromProto] on the
    wire record of the request, and the record it returns is the one the
    run goes on with. When the header has no key and the directory has
    none, [PushRecord] fails with "follow key not found" having done
    nothing but that lookup: nothing is decoded, merged or persisted. *)
Theorem PushRecord_envelope_key req w hdr pk r :
  req_Header req = Some hdr ->
  requestPubKey hdr = Returns (Ok pk) ->
  req_Record req = Some r ->
  verifyRequestSignature r pk (hdr_Signature hdr) = None ->
  (forall fk, hdr_FollowKey hdr = Some fk ->
     decoded_under req w r (HeaderKey fk) []) /\
  (hdr_FollowKey hdr = None ->
     (req_ThreadID req = None \/ req_LogID req = None ->
        PushRecord req w = (Panics, w, [])) /\
     (forall id lid, req_ThreadID req = Some id -> req_LogID req = Some lid ->
        (forall e, store_FollowKey w id lid = Err e ->
           PushRecord req w = (Returns (Err e), w, [CFollowKey id lid])) /\
        (store_FollowKey w id lid = Ok None ->
           PushRecord req w
           = (Returns (Err "follow key not found"), w, [CFollowKey id lid])) /\
        (forall k, store_FollowKey w id lid = Ok (Some k) ->
           decoded_under req w r (StoreKey k) [CFollowKey id lid]))).
Proof.
  intros Hh Hpk Hr Hsig. split.
  - intros fk Hfk. apply (PushRecord_decoded req w hdr pk r _ _ Hh Hpk Hr Hsig).
    by rewrite Hfk.
  - intros Hfk. split.
    + intros Hnil.
      unfold PushRecord, bindP, pure, deref, returns, retP, failP, check.
      rewrite Hh, Hpk, Hr, Hsig, Hfk. simpl.
      destruct Hnil as [-> | ->]; [done|]. by destruct (req_ThreadID req).
    + intros id lid Hid Hlid. split; [|split].
      * intros e He.
        unfold PushRecord, bindP, pure, deref, returns, retP, failP, check, query.
        by rewrite Hh, Hpk, Hr, Hsig, Hfk, Hid, Hlid, He.
      * intros He.
        unfold PushRecord, bindP, pure, deref, returns, retP, failP, check, query.
        by rewrite Hh, Hpk, Hr, Hsig, Hfk, Hid, Hlid, He.
      * intros k Hk. apply (PushRecord_decoded req w hdr pk r _ _ Hh Hpk Hr Hsig).
        rewrite Hfk. exists id, lid, k. by repeat split.
Qed.

(** C6. The signer of a request with a header is [header.Key] when
    present, and then [header.From] must match it; otherwise it is the key
    extracted from [header.From], and the request is refused when there is
    none. Both ways [header.From] is read without a test: on a request
    whose header has no [From] the handler panics, before any call. A
    request [PushRecord] accepts carries a signature that verifies over the
    serialization of its record under the signer's key; a request whose
    signer cannot be resolved or whose signature does not verify is refused
    with that error, without a call to any collaborator and with the node
    as it was; on a request without a record the handler panics when it
    comes to serialize it. *)
Theorem PushRecord_signer req w hdr :
  req_Header req = Some hdr ->
  (hdr_From hdr = None ->
     requestPubKey hdr = Panics /\ PushRecord req w = (Panics, w, [])) /\
  (forall from, hdr_From hdr = Some from ->
     (forall k, hdr_Key hdr = Some k ->
        (MatchesPublicKey from k = true -> requestPubKey hdr = Returns (Ok k)) /\
        (MatchesPublicKey from k = false ->
           exists e, requestPubKey hdr = Returns (Err e))) /\
     (hdr_Key hdr = None ->
        (forall pubk, ExtractPublicKey from = Ok (Some pubk) ->
           requestPubKey hdr = Returns (Ok pubk)) /\
        ((forall pubk, ExtractPublicKey from <> Ok (Some pubk)) ->
           exists e, requestPubKey hdr = Returns (Err e)))) /\
  (forall reply, result (PushRecord req w) = Returns (Ok reply) ->
     exists pk r payload,
       requestPubKey hdr = Returns (Ok pk) /\
       req_Record req = Some r /\
       Record_Marshal r = Ok payload /\
       PubKey_Verify pk payload (hdr_Signature hdr) = (true, None)) /\
  (forall e, requestPubKey hdr = Returns (Err e) ->
     PushRecord req w = (Returns (Err e), w, [])) /\
  (forall pk, requestPubKey hdr = Returns (Ok pk) ->
     (req_Record req = None -> PushRecord req w = (Panics, w, [])) /\
     (forall r e, req_Record req = Some r ->
        verifyRequestSignature r pk (hdr_Signature hdr) = Some e ->
        PushRecord req w = (Returns (Err e), w, []))).
Proof.
  intros Hh. split; [|split; [|split; [|split]]].
  - intros Hfrom. split.
    + unfold requestPubKey. rewrite Hfrom. by destruct (hdr_Key hdr).
    + unfold PushRecord, bindP, pure, requestPubKey. rewrite Hh, Hfrom.
      by destruct (hdr_Key hdr).
  - intros from Hfrom. split.
    + intros k Hk. unfold requestPubKey. rewrite Hk, Hfrom.
      split; intros ->; simpl; eauto.
    + intros Hk. unfold requestPubKey. rewrite Hk, Hfrom. split.
      * by intros pubk ->.
      * intros He. destruct (ExtractPublicKey from) as [[pubk|]|e]; eauto.
        by destruct (He pubk).
  - intros reply Hres.
    destruct (PushRecord_success _ _ _ Hres)
      as (hdr' & pk & r & key & rec & Hh' & Hpk & Hr & Hsig & _).
    rewrite Hh in Hh'. injection Hh' as <-.
    apply verifyRequestSignature_None in Hsig as (payload & Hm & Hv). eauto 10.
  - intros e He. unfold PushRecord, bindP, pure. by rewrite Hh, He.
  - intros pk Hpk. split.
    + intros Hr. unfold PushRecord, bindP, pure, deref. by rewrite Hh, Hpk, Hr.
    + intros r e Hr Hsig.
      unfold PushRecord, bindP, pure, deref, returns, check. by rewrite Hh, Hpk, Hr, Hsig.
Qed.
End PushRecordProps.


(** ** The new-log merger *)

Section NewLogsProps.
Context {W : Type} `{!Crypto} `{!Codec W} `{!Threads W}.
Implicit Types (w : W) (id : ThreadID) (lid kid : PeerID) (rec : Record_).

Lemma matching_dec (lg : LogInfo) : {matching lg} + {~ matching lg}.
Proof.
  unfold matching. destruct (MatchesPublicKey (lg_ID lg) (lg_PubKey lg)).
  - by left.
  - right. discriminate.
Qed.

(** The first descriptor that does not match its key. *)
Lemma first_mismatch (lgs : list LogInfo) :
  Exists (fun lg => ~ matching lg) lgs ->
  exists pre bad rest,
    lgs = pre ++ bad :: rest /\ Forall matching pre /\ ~ matching bad.
Proof.
  induction lgs as [|lg lgs IH]; intros Hex.
  - by apply Exists_nil in Hex.
  - destruct (matching_dec lg) as [Hm|Hm].
    + apply Exists_cons in Hex as [Hex|Hex]; [done|].
      destruct (IH Hex) as (pre & bad & rest & -> & Hpre & Hbad).
      exists (lg :: pre), bad, rest. repeat split; [by constructor | done].
    + exists [], lg, lgs. repeat split; [constructor | done].
Qed.

(** The loop upserts the descriptors one after the other, each followed
    by the spawn of a history pull, and stops at the first descriptor that
    does not match its key, that the record does not verify under, or
    that [AddLog] refuses. *)
Lemma handleNewLogs_loop_spec id lid rec lgs : forall w,
  exists done rest wd,
    lgs = done ++ rest /\
    Forall matching done /\
    Forall (verified_for lid rec) done /\
    AddLog_each id done w = (None, wd) /\
    match rest with
    | [] => handleNewLogs_loop id lid rec lgs w = (Ok tt, wd, upsert_calls id done)
    | lg :: _ =>
        exists e w' t,
          stops_at id lid rec lg wd e w' t /\
          handleNewLogs_loop id lid rec lgs w = (Err e, w', upsert_calls id done ++ t)
    end.
Proof.
  induction lgs as [|lg lgs IH]; intros w.
  - exists [], [], w. by repeat split.
  - simpl. unfold bind, check, update, emit, ret, fail.
    destruct (MatchesPublicKey (lg_ID lg) (lg_PubKey lg)) eqn:Hm; simpl.
    2: { exists [], (lg :: lgs), w. repeat split; try constructor.
         exists "invalid log", w, []. split; [|done].
         left. repeat split. unfold matching. by rewrite Hm. }
    destruct (String.eqb (ID_String (lg_ID lg)) (ID_String lid)) eqn:He;
      [destruct (Record_Verify rec (lg_PubKey lg)) as [e|] eqn:Hv|]; simpl.
    { apply String.eqb_eq in He.
      exists [], (lg :: lgs), w. repeat split; try constructor.
      exists e, w, []. split; [|done]. right. left. by repeat split. }
    all: assert (Hver : verified_for lid rec lg)
      by (unfold verified_for; intros Hc; first [exact Hv | by apply String.eqb_neq in He]).
    all: destruct (store_AddLog w id lg) as [[e|] w1] eqn:Ha; simpl.
    all: try (exists [], (lg :: lgs), w; repeat split; try constructor;
              exists e, w1, [CAddLog id lg]; split; [|done];
              right; right; by repeat split).
    all: destruct (IH w1) as (done & rest & wd & -> & Hdone & Hv' & Hadd & Hrun).
    all: exists (lg :: done), rest, wd; simpl; rewrite Ha.
    all: repeat split; [by constructor | by constructor | done |].
    all: destruct rest as [|lg' rest];
      [by rewrite Hrun
      |destruct Hrun as (e & w' & t & Hstop & ->); exists e, w', t; by split].
Qed.

(** A mismatching descriptor ends the loop: the descriptors before it are
    processed as if the document ended with them. *)
Lemma handleNewLogs_loop_mismatch id lid rec pre bad rest :
  ~ matching bad -> forall w,
  handleNewLogs_loop id lid rec (pre ++ bad :: rest) w =
  match result (handleNewLogs_loop id lid rec pre w) with
  | Ok _ => (Err "invalid log", state (handleNewLogs_loop id lid rec pre w),
             calls (handleNewLogs_loop id lid rec pre w))
  | Err e => handleNewLogs_loop id lid rec pre w
  end.
Proof.
  intros Hbad. unfold matching in Hbad. apply not_true_is_false in Hbad.
  induction pre as [|lg pre IH]; intros w.
  - simpl. by rewrite Hbad.
  - simpl. unfold bind, check, update, emit, ret, fail, result, state, calls in *.
    repeat (case_inner; simpl in * ); try done.
    all: match goal with
         | Hl : handleNewLogs_loop _ _ _ (?p ++ _) ?w0 = _,
           Hp : handleNewLogs_loop _ _ _ ?p ?w0 = _ |- _ =>
             rewrite IH, Hp in Hl; simpl in Hl
         end.
    all: simplify_eq; done.
Qed.

Lemma handleNewLogs_roles_only id lid lgs newThread :
  only roles_call (handleNewLogs_roles id lid lgs newThread).
Proof. unfold handleNewLogs_roles. repeat only_step. Qed.

(** Decoding reads only; the document it returns is the one it decoded. *)
Lemma handleNewLogs_logs_spec id kid rec w :
  state (handleNewLogs_logs id kid rec w) = w /\
  forallb decode_call (calls (handleNewLogs_logs id kid rec w)) = true /\
  (forall body, In (CLogsFromNode body) (calls (handleNewLogs_logs id kid rec w)) ->
     exists ti,
       store_ThreadInfo w id = Ok ti /\
       result (handleNewLogs_logs id kid rec w)
       = match LogsFromNode body with
         | Ok lgs => Ok (lgs, negb (0 <? length (ti_Logs ti))%nat)
         | Err e => Err e
         end).
Proof.
  unfold handleNewLogs_logs, bind, lift, query, call, ret, fail, result, state, calls.
  repeat (case_inner; simpl in * ).
  all: split; [reflexivity|]; split; [reflexivity|].
  all: intros body Hin.
  all: repeat match goal with
         | Hd : _ \/ _ |- _ => destruct Hd
         | Hf : False |- _ => destruct Hf
         | He : CLogsFromNode _ = CLogsFromNode _ |- _ => injection He as <-
         | He : _ = CLogsFromNode _ |- _ => discriminate He
         end.
  all: eexists; split; [reflexivity|].
  all: repeat match goal with
         | He : LogsFromNode _ = _ |- _ => rewrite He
         | He : (_ <? _)%nat = _ |- _ => rewrite He
         end; simplify_eq; reflexivity.
Qed.

Lemma upserts_app t1 t2 : upserts (t1 ++ t2) = upserts t1 ++ upserts t2.
Proof. apply List.filter_app. Qed.

Lemma upserts_decode t : forallb decode_call t = true -> upserts t = [].
Proof.
  induction t as [|c t IH]; [done|]. simpl.
  intros [Hc Ht]%andb_prop. rewrite (IH Ht). by destruct c.
Qed.

Lemma upserts_upsert_calls id lgs : upserts (upsert_calls id lgs) = map (CAddLog id) lgs.
Proof. induction lgs as [|lg lgs IH]; [done|]. simpl. by rewrite <- IH. Qed.

(** The run of [handleNewLogs] that decoded the document [lgs]. *)
Lemma handleNewLogs_run id lid kid rec w body lgs :
  In (CLogsFromNode body) (calls (handleNewLogs id lid kid rec w)) ->
  LogsFromNode body = Ok lgs ->
  exists ti pre,
    store_ThreadInfo w id = Ok ti /\
    forallb decode_call pre = true /\
    let newThread := negb (0 <? length (ti_Logs ti))%nat in
    let loop := handleNewLogs_loop id lid rec (Logs_Logs lgs) w in
    let roles := handleNewLogs_roles id lid lgs newThread (state loop) in
    handleNewLogs id lid kid rec w =
    match result loop with
    | Err e => (Ok (None, None, Some e), state loop, pre ++ calls loop)
    | Ok _ =>
        (match result roles with Ok r => Ok r | Err e => Ok (None, None, Some e) end,
         state roles, pre ++ calls loop ++ calls roles)
    end.
Proof.
  intros Hin Hdoc.
  destruct (handleNewLogs_logs_spec id kid rec w) as (Hst & Hpre & Hbody).
  assert (Hin' : In (CLogsFromNode body) (calls (handleNewLogs_logs id kid rec w))).
  { unfold handleNewLogs in Hin. rewrite calls_named_results, calls_bind in Hin.
    apply in_app_iff in Hin as [Hin|Hin]; [done|exfalso].
    destruct (result (handleNewLogs_logs id kid rec w)) as [[lgs' nt]|e]; [|done].
    rewrite calls_bind in Hin. apply in_app_iff in Hin as [Hin|Hin].
    - pose proof (handleNewLogs_loop_only id lid rec (Logs_Logs lgs')
                    (state (handleNewLogs_logs id kid rec w))) as Hl.
      rewrite forallb_forall in Hl. apply Hl in Hin. discriminate Hin.
    - destruct (result (handleNewLogs_loop _ _ _ _ _)); [|done].
      pose proof (handleNewLogs_roles_only id lid lgs' nt
                    (state (handleNewLogs_loop id lid rec (Logs_Logs lgs')
                              (state (handleNewLogs_logs id kid rec w))))) as Hr.
      rewrite forallb_forall in Hr. apply Hr in Hin. discriminate Hin. }
  destruct (Hbody body Hin') as (ti & Hti & Hres). rewrite Hdoc in Hres.
  exists ti, (calls (handleNewLogs_logs id kid rec w)).
  split; [done|]. split; [done|]. cbv zeta.
  unfold handleNewLogs, named_results, bind.
  unfold result, state, calls in *.
  destruct (handleNewLogs_logs id kid rec w) as [[r0 w1] t1]; simpl in *. subst r0 w1.
  destruct (handleNewLogs_loop id lid rec (Logs_Logs lgs) w) as [[[u|e] w2] t2];
    simpl; [|done].
  by destruct (handleNewLogs_roles id lid lgs (negb (0 <? length (ti_Logs ti))%nat) w2)
    as [[[r|e] w3] t3].
Qed.

(** The role taken on a document that is not readable: follower. *)
Lemma handleNewLogs_roles_follower id lid lgs newThread w :
  Readable lgs = false ->
  handleNewLogs_roles id lid lgs newThread w =
  match NewMultiaddr ("/" +:+ P_P2P_Name +:+ "/" +:+ ID_String host_ID) with
  | Err e => (Err e, w, [])
  | Ok a =>
      match store_AddAddr w id lid a PermanentAddrTTL with
      | (Some e, w') => (Ok (None, Some a, Some e), w', [CAddAddr id lid a PermanentAddrTTL])
      | (None, w') =>
          (Ok (None, Some a, None), w',
           CAddAddr id lid a PermanentAddrTTL
           :: if newThread then [CGoSubscribe id] else [])
      end
  end.
Proof.
  intros Hr.
  unfold handleNewLogs_roles, or_return, bind, lift, update, emit, ret.
  rewrite Hr. simpl.
  destruct (NewMultiaddr _) as [a|e]; [|done].
  destruct (store_AddAddr w id lid a PermanentAddrTTL) as [[e|] w']; [done|].
  by destruct newThread.
Qed.


(** An own log comes from a readable document of a new thread. *)
Lemma handleNewLogs_roles_ownLog id lid lgs newThread w lg newAddr err :
  result (handleNewLogs_roles id lid lgs newThread w) = Ok (Some lg, newAddr, err) ->
  Readable lgs = true /\ newThread = true.
Proof.
  unfold handleNewLogs_roles, or_return, bind, lift, update, invoke, emit, ret, result.
  destruct (Readable lgs), newThread; simpl.
  all: repeat (case_inner; simpl in * ); intros; simplify_eq; done.
Qed.

(** C3. Let [handleNewLogs] decode the Logs document [lgs]. If [lgs] is
    not readable and the handler returns without an error, it returns no
    own log; the address it returns is the multiaddress made of the name of
    the p2p protocol and of the identity of this peer, "/p2p/<this peer>",
    and it has registered that address in the directory for the log of the
    sender ([lid]) with the permanent TTL, the node being left as
    [AddAddr] left it. An own log is returned only when the document is
    readable and the thread had no log at this peer. *)
Theorem handleNewLogs_roles_assigned id lid kid rec w body lgs ownLog newAddr err :
  In (CLogsFromNode body) (calls (handleNewLogs id lid kid rec w)) ->
  LogsFromNode body = Ok lgs ->
  result (handleNewLogs id lid kid rec w) = Ok (ownLog, newAddr, err) ->
  (Readable lgs = false -> err = None ->
     ownLog = None /\
     exists a w1,
       NewMultiaddr ("/" +:+ P_P2P_Name +:+ "/" +:+ ID_String host_ID) = Ok a /\
       newAddr = Some a /\
       In (CAddAddr id lid a PermanentAddrTTL) (calls (handleNewLogs id lid kid rec w)) /\
       store_AddAddr w1 id lid a PermanentAddrTTL
       = (None, state (handleNewLogs id lid kid rec w))) /\
  (forall lg, ownLog = Some lg ->
     Readable lgs = true /\
     exists ti, store_ThreadInfo w id = Ok ti /\ ti_Logs ti = []).
Proof.
  intros Hin Hdoc Hres.
  destruct (handleNewLogs_run _ _ _ _ _ _ _ Hin Hdoc) as (ti & pre & Hti & Hpre & Hrun).
  cbv zeta in Hrun. rewrite Hrun in *. clear Hrun.
  unfold result, state, calls in *.
  destruct (handleNewLogs_loop id lid rec (Logs_Logs lgs) w) as [[[u|e] w2] tl];
    simpl in *.
  2: { injection Hres as <- <- <-. split; discriminate. }
  split.
  - intros Hr ->.
    rewrite (handleNewLogs_roles_follower _ _ _ _ _ Hr) in *.
    destruct (NewMultiaddr _) as [a|e]; [|discriminate].
    destruct (store_AddAddr w2 id lid a PermanentAddrTTL) as [[e|] w'] eqn:Ha;
      simpl in *; [discriminate|].
    injection Hres as <- <-. split; [done|].
    exists a, w2. repeat split; [|done].
    rewrite !in_app_iff. right. right. by left.
  - intros lg ->.
    destruct (handleNewLogs_roles _ _ _ _ _) as [[[r|e] w3] t3] eqn:Hroles;
      simpl in *; [|discriminate].
    injection Hres as ->.
    assert (Hr : result (handleNewLogs_roles id lid lgs
                           (negb (0 <? length (ti_Logs ti))%nat) w2)
                 = Ok (Some lg, newAddr, err)) by by rewrite Hroles.
    apply handleNewLogs_roles_ownLog in Hr as [Hr Hnt]. split; [done|].
    exists ti. split; [done|].
    destruct (ti_Logs ti); [done|discriminate].
Qed.

(** [PushRecord] hands the error of the new-log merger to its caller, and
    then neither advertises nor persists. *)
Lemma PushRecord_new_merger_error id lid hdr rec reply w x e :
  store_PubKey w id lid = Ok None ->
  let run := handleNewLogs id lid
               (match hdr_ReadKeyLogID hdr with Some k => k | None => "" end) rec w in
  result run = Ok (x, Some e) ->
  PushRecord_new id lid hdr rec reply w = (Err e, state run, CPubKey id lid :: calls run).
Proof.
  intros Hpk run Hres. subst run.
  unfold PushRecord_new, bind, query, fail. rewrite Hpk.
  unfold result, state, calls in *.
  destruct (handleNewLogs _ _ _ _ _) as [[r w1] t1]; simpl in *. subst r.
  destruct x as [lg na]. simpl. by rewrite app_nil_r.
Qed.

Lemma In_upsert_calls id id' lg lgs :
  In (CAddLog id' lg) (upsert_calls id lgs) <-> id' = id /\ In lg lgs.
Proof.
  induction lgs as [|lg0 lgs IH]; simpl; [tauto|].
  rewrite IH. split.
  - intros [[= <- <-] | [[=] | [-> Hin]]]; auto.
  - intros [-> [-> | Hin]]; auto.
Qed.

(** What the loop hands to [AddLog]. *)
Lemma handleNewLogs_loop_AddLog id lid rec lgs w id' lg :
  In (CAddLog id' lg) (calls (handleNewLogs_loop id lid rec lgs w)) ->
  id' = id /\ In lg lgs /\ matching lg /\ verified_for lid rec lg.
Proof.
  destruct (handleNewLogs_loop_spec id lid rec lgs w)
    as (done & rest & wd & -> & Hdone & Hver & Hadd & Hrun).
  rewrite Forall_forall in Hdone, Hver.
  destruct rest as [|lg0 rest].
  - rewrite Hrun. unfold calls. simpl. intros [-> Hin]%In_upsert_calls.
    rewrite app_nil_r. repeat split; try done.
    + by apply Hdone, list_elem_of_In.
    + by apply Hver, list_elem_of_In.
  - destruct Hrun as (e & w' & t & Hstop & ->). unfold calls. simpl.
    intros [[-> Hin]%In_upsert_calls | Hin]%in_app_iff.
    + repeat split; try done.
      * apply in_app_iff. by left.
      * by apply Hdone, list_elem_of_In.
      * by apply Hver, list_elem_of_In.
    + destruct Hstop as [(_ & _ & _ & ->) | [(_ & _ & _ & _ & ->) | (Hm & Hv & _ & ->)]];
        try by destruct Hin.
      destruct Hin as [[= <- <-] | []]. repeat split; try done.
      apply in_app_iff. right. by left.
Qed.

(** C4, as it holds. Let the new-log merger decode a Logs document with a
    descriptor whose LogID does not match its PubKey, and take the first
    such descriptor. The merger returns an error, without an own log or a
    new address, and [PushRecord] returns that error to its caller without
    advertising or persisting anything. The descriptors before the
    mismatching one are processed as if the document ended with them: the
    node the merger leaves and the calls of its loop are those of the loop
    on these descriptors. If that loop succeeds, every one of them has been
    upserted, the node is the one these [AddLog] calls left, and the error
    is "invalid log". If it fails, on a descriptor the record does not
    verify under or that [AddLog] refuses, its error is the error of the
    merger, and the descriptors before that one have been upserted. The
    mismatching descriptor and those after it are never upserted. *)
Theorem handleNewLogs_invalid_log id lid kid rec w body lgs :
  In (CLogsFromNode body) (calls (handleNewLogs id lid kid rec w)) ->
  LogsFromNode body = Ok lgs ->
  Exists (fun lg => ~ matching lg) (Logs_Logs lgs) ->
  let run := handleNewLogs id lid kid rec w in
  exists pre bad rest e,
    Logs_Logs lgs = pre ++ bad :: rest /\ Forall matching pre /\ ~ matching bad /\
    result run = Ok (None, None, Some e) /\
    (forall hdr reply,
       match hdr_ReadKeyLogID hdr with Some k => k | None => "" end = kid ->
       store_PubKey w id lid = Ok None ->
       PushRecord_new id lid hdr rec reply w
       = (Err e, state run, CPubKey id lid :: calls run)) /\
    let before := handleNewLogs_loop id lid rec pre w in
    state run = state before /\
    (exists reads, forallb decode_call reads = true /\ calls run = reads ++ calls before) /\
    (forall u, result before = Ok u ->
       e = "invalid log" /\
       AddLog_each id pre w = (None, state run) /\
       calls before = upsert_calls id pre) /\
    (forall e', result before = Err e' ->
       e = e' /\
       exists done lg rest' wd t,
         pre = done ++ lg :: rest' /\
         AddLog_each id done w = (None, wd) /\
         stops_at id lid rec lg wd e' (state run) t /\
         calls before = upsert_calls id done ++ t) /\
    (forall id' lg, In (CAddLog id' lg) (calls run) -> id' = id /\ In lg pre).
Proof.
  intros Hin Hdoc Hbad run. subst run.
  destruct (first_mismatch _ Hbad) as (pre & bad & rest & Hsplit & Hpre & Hnm).
  destruct (handleNewLogs_run _ _ _ _ _ _ _ Hin Hdoc) as (ti & reads & Hti & Hreads & Hrun).
  cbv zeta in Hrun.
  rewrite Hsplit, (handleNewLogs_loop_mismatch id lid rec pre bad rest Hnm w) in Hrun.
  pose proof (handleNewLogs_loop_spec id lid rec pre w)
    as (done & rest0 & wd & Hpre_split & Hdone & Hver & Hadd & Hloop).
  pose proof (fun id' lg => handleNewLogs_loop_AddLog id lid rec pre w id' lg) as HAdd.
  assert (Hnoadd : forall id' lg, ~ In (CAddLog id' lg) reads).
  { intros id' lg Hx. rewrite forallb_forall in Hreads. apply Hreads in Hx. discriminate Hx. }
  set (e := match result (handleNewLogs_loop id lid rec pre w) with
            | Ok _ => "invalid log"
            | Err e' => e'
            end).
  assert (Hrun' : handleNewLogs id lid kid rec w
                  = (Ok (None, None, Some e),
                     state (handleNewLogs_loop id lid rec pre w),
                     reads ++ calls (handleNewLogs_loop id lid rec pre w))).
  { rewrite Hrun. subst e. unfold result, state, calls.
    by destruct (handleNewLogs_loop id lid rec pre w) as [[[u|e'] wb] tb]. }
  clear Hrun.
  exists pre, bad, rest, e.
  split; [done|]. split; [done|]. split; [done|].
  split; [by rewrite Hrun'|].
  split.
  { intros hdr reply <- Hpk.
    apply PushRecord_new_merger_error with (x := (None, None)); [done|].
    by rewrite Hrun'. }
  cbv zeta. split; [by rewrite Hrun'|].
  split; [exists reads; by rewrite Hrun'|].
  split; [|split].
  - intros u Hu. subst e. rewrite Hu. split; [done|].
    destruct rest0 as [|lg0 rest0].
    + rewrite app_nil_r in Hpre_split. subst done.
      rewrite Hrun', Hloop. by split.
    + destruct Hloop as (e1 & w' & t & _ & Hl). rewrite Hl in Hu. discriminate Hu.
  - intros e' He'. subst e. rewrite He'. split; [done|].
    destruct rest0 as [|lg0 rest0].
    + rewrite Hloop in He'. discriminate He'.
    + destruct Hloop as (e1 & w' & t & Hstop & Hl).
      rewrite Hl in He'. injection He' as ->.
      exists done, lg0, rest0, wd, t. rewrite Hrun', Hl. by repeat split.
  - intros id' lg. rewrite Hrun'. unfold calls at 1. simpl.
    intros [Hx|Hx]%in_app_iff; [by apply Hnoadd in Hx|].
    apply HAdd in Hx. tauto.
Qed.

End NewLogsProps.

(** ** The subscription loop and the outbound request *)

Section SubscribeProps.
Context {W : Type} `{!Crypto} `{!Codec W} `{!Threads W}.
Implicit Types (w : W) (msg : Message) (from : PeerID).

Lemma subscribe_body_self msg from w :
  IDFromBytes (msg_From msg) = Ok from ->
  ID_String from = ID_String host_ID ->
  subscribe_body (Ok msg) w = (Returns (Ok Continue), w, []).
Proof.
  intros Hfrom Heq. unfold subscribe_body. rewrite Hfrom, Heq.
  by rewrite String.eqb_refl.
Qed.

Lemma subscribe_body_other msg from w :
  IDFromBytes (msg_From msg) = Ok from ->
  ID_String from <> ID_String host_ID ->
  subscribe_body (Ok msg) w =
  match Unmarshal (msg_Data msg) with
  | Err e => (Returns (Ok Continue), w, [CLogError e])
  | Ok req =>
      match result (PushRecord req w) with
      | Returns r =>
          (Returns (Ok Continue), state (PushRecord req w),
           calls (PushRecord req w) ++ match r with
                                       | Err e => [CLogError e]
                                       | Ok _ => []
                                       end)
      | Panics => (Panics, state (PushRecord req w), calls (PushRecord req w))
      end
  end.
Proof.
  intros Hfrom Hne. unfold subscribe_body. rewrite Hfrom.
  apply String.eqb_neq in Hne. rewrite Hne.
  destruct (Unmarshal (msg_Data msg)) as [req|e]; [|done].
  unfold bindP, attemptP, logError, returns, emit, retP, result, state, calls.
  by destruct (PushRecord req w) as [[[[reply|e]|] w'] t].
Qed.

(** An iteration that does not panic on a message whose sender parses
    ends in [continue]. *)
Lemma subscribe_body_continues msg from w :
  IDFromBytes (msg_From msg) = Ok from ->
  result (subscribe_body (Ok msg) w) <> Panics ->
  result (subscribe_body (Ok msg) w) = Returns (Ok Continue).
Proof.
  intros Hfrom.
  destruct (decide (ID_String from = ID_String host_ID)) as [Heq|Hne].
  - by rewrite (subscribe_body_self _ _ _ Hfrom Heq).
  - rewrite (subscribe_body_other _ _ _ Hfrom Hne).
    destruct (Unmarshal (msg_Data msg)); [|done].
    by destruct (result (PushRecord _ w)).
Qed.

(** C7, as it holds. Take a message whose sender bytes parse as a peer
    identity. If the sender is this peer (the loop compares the string
    forms of the two identities) the message is dropped: nothing is called,
    nothing is logged, nothing changes. Otherwise the payload is decoded as
    a PushRecordRequest; when that fails the error is logged; when it
    succeeds the request is run through [PushRecord], and the error it
    returns, if any, is logged. In all these cases the loop continues with
    the next message, in the state the message left. A message whose
    sender bytes do not parse is logged and ends the loop. All this is for
    a message on which [PushRecord] returns: what is said of the others is
    that the iteration does not return either. *)
Theorem subscribe_loop_message msg rest w :
  (forall from, IDFromBytes (msg_From msg) = Ok from ->
     (from = host_ID \/ ID_String from = ID_String host_ID ->
        subscribe_body (Ok msg) w = (Returns (Ok Continue), w, [])) /\
     (ID_String from <> ID_String host_ID ->
        (forall e, Unmarshal (msg_Data msg) = Err e ->
           subscribe_body (Ok msg) w = (Returns (Ok Continue), w, [CLogError e])) /\
        (forall req r, Unmarshal (msg_Data msg) = Ok req ->
           result (PushRecord req w) = Returns r ->
           subscribe_body (Ok msg) w =
           (Returns (Ok Continue), state (PushRecord req w),
            calls (PushRecord req w) ++ match r with
                                        | Err e => [CLogError e]
                                        | Ok _ => []
                                        end)) /\
        (forall req, Unmarshal (msg_Data msg) = Ok req ->
           result (PushRecord req w) = Panics ->
           result (subscribe_body (Ok msg) w) = Panics)) /\
     (result (subscribe_body (Ok msg) w) <> Panics -> continues_after msg rest w)) /\
  (forall e, IDFromBytes (msg_From msg) = Err e ->
     subscribe_loop (Ok msg :: rest) w = (Returns (Ok tt), w, [CLogError e])).
Proof.
  split.
  - intros from Hfrom. split; [|split].
    + intros [->|Heq]; by eapply subscribe_body_self.
    + intros Hne. rewrite (subscribe_body_other _ _ _ Hfrom Hne).
      split; [by intros e ->|]. split.
      * intros req r -> Hr. by rewrite Hr.
      * intros req -> Hp. by rewrite Hp.
    + intros Hnp.
      pose proof (subscribe_body_continues msg from w Hfrom Hnp) as Hc.
      unfold continues_after. cbv zeta.
      change (subscribe_loop (Ok msg :: rest))
        with (bindP (subscribe_body (Ok msg))
                (fun c => match c with
                          | Continue => subscribe_loop rest
                          | Break => retP tt
                          end)).
      unfold bindP, result, state, calls in *.
      destruct (subscribe_body (Ok msg) w) as [[o w1] t1]. simpl in *. subst o.
      by destruct (subscribe_loop rest w1) as [[o2 w2] t2].
  - intros e He. simpl. unfold subscribe_body. rewrite He. reflexivity.
Qed.

Lemma pushRecord_addrs_state tid lid logs : forall addrs w,
  state (pushRecord_addrs tid lid logs addrs w) = w.
Proof.
  induction logs as [|l logs IH]; intros addrs w; simpl; [done|].
  destruct (String.eqb _ _); [apply IH|].
  rewrite bind_run. unfold query, result, state at 1 2. simpl.
  destruct (store_Addrs w tid l); [|done]. apply IH.
Qed.

(** C8. In the request [pushRecord] builds, [header.ReadKeyLogID] is
    [settings.KeyLog] if the directory returns a read key for
    [(settings.ThreadID, settings.KeyLog)], and is unset if it returns
    none. *)
Theorem pushRecord_ReadKeyLogID rec id lid settings w addrs req :
  result (pushRecord_request rec id lid settings w) = Ok (addrs, req) ->
  exists hdr logKey,
    req_Header req = Some hdr /\
    store_ReadKey w (set_ThreadID settings) (set_KeyLog settings) = Ok logKey /\
    (hdr_ReadKeyLogID hdr = Some (set_KeyLog settings) <-> is_Some logKey) /\
    (hdr_ReadKeyLogID hdr = None <-> logKey = None).
Proof.
  pose proof (pushRecord_addrs_state (set_ThreadID settings) lid) as Hst.
  unfold pushRecord_request, bind, lift, query, ret, fail, result, state in *.
  repeat (case_inner; simpl in *; try discriminate).
  all: intros [= <- <-]; simpl.
  all: match goal with
       | Ha : pushRecord_addrs _ _ ?logs ?a ?w0 = _ |- _ =>
           specialize (Hst logs a w0); rewrite Ha in Hst; simpl in Hst; subst
       end.
  all: eexists _, _; split; [reflexivity|]; split; [eassumption|].
  all: split; split; intros Hx; try done; try (by eexists).
  all: by destruct Hx.
Qed.
End SubscribeProps.

(** ** Runs on the test node *)

Section OnTheTestNode.
Import Fixture.

(** [PutRecord] of the test node puts the record in its block store. *)
Lemma fixture_PutRecord_persists (w0 : node) r id lid w1 :
  PutRecord w0 r id lid = (None, w1) -> bstore_Has w1 (rec_Cid r) = Ok true.
Proof. intros [= <-]. simpl. by rewrite String.eqb_refl. Qed.

(** C1 on the test node: the reader invitation pushed to a node that has
    its record, and alice's post pushed twice to a node that knows her
    log. *)
Lemma PushRecord_known_record_idempotent_witness :
  (In (CHas "cid:invite-reader") (calls (PushRecord req_reader bob_known)) /\
   bstore_Has bob_known "cid:invite-reader" = Ok true /\
   result (PushRecord req_reader bob_known) = Returns (Ok {| NewAddr := None |}) /\
   state (PushRecord req_reader bob_known) = bob_known /\
   forallb unpack_call (calls (PushRecord req_reader bob_known)) = true) /\
  (result (PushRecord req_nokey bob_alice) = Returns (Ok {| NewAddr := None |}) /\
   let w1 := state (PushRecord req_nokey bob_alice) in
   result (PushRecord req_nokey w1) = Returns (Ok {| NewAddr := None |}) /\
   state (PushRecord req_nokey w1) = w1 /\
   forallb unpack_call (calls (PushRecord req_nokey w1)) = true).
Proof.
  split.
  - assert (Hin : In (CHas "cid:invite-reader") (calls (PushRecord req_reader bob_known)))
      by (vm_compute; tauto).
    assert (Hhas : bstore_Has bob_known "cid:invite-reader" = Ok true) by reflexivity.
    split; [exact Hin|]. split; [exact Hhas|].
    exact (proj1 (PushRecord_known_record_idempotent req_reader bob_known)
             "cid:invite-reader" Hin Hhas).
  - assert (Hres : result (PushRecord req_nokey bob_alice)
                   = Returns (Ok {| NewAddr := None |}))
      by reflexivity.
    split; [exact Hres|].
    apply (proj2 (PushRecord_known_record_idempotent req_nokey bob_alice)
             {| NewAddr := None |} fixture_PutRecord_persists Hres).
    intros hdr id lid _ _ _ _. reflexivity.
Defined.



(** C3 on the test node: the follower invitation gives bob the address
    "/p2p/bob" and no own log; the reader invitation gives him an own
    log. *)
Lemma handleNewLogs_roles_assigned_witness :
  (In (CLogsFromNode "invite-follower")
      (calls (handleNewLogs "t1" "alice" "" (record_of "invite-follower") bob)) /\
   LogsFromNode "invite-follower" = Ok doc_follower /\
   Readable doc_follower = false /\
   result (handleNewLogs "t1" "alice" "" (record_of "invite-follower") bob)
   = Ok (None, Some "/p2p/bob", None) /\
   exists a w1,
     NewMultiaddr ("/" +:+ P_P2P_Name +:+ "/" +:+ ID_String host_ID) = Ok a /\
     Some "/p2p/bob" = Some a /\
     In (CAddAddr "t1" "alice" a PermanentAddrTTL)
        (calls (handleNewLogs "t1" "alice" "" (record_of "invite-follower") bob)) /\
     store_AddAddr w1 "t1" "alice" a PermanentAddrTTL
     = (None, state (handleNewLogs "t1" "alice" "" (record_of "invite-follower") bob))) /\
  (result (handleNewLogs "t1" "alice" "" (record_of "invite-reader") bob)
   = Ok (Some own_log, None, None) /\
   Readable doc_reader = true /\
   exists ti, store_ThreadInfo bob "t1" = Ok ti /\ ti_Logs ti = []).
Proof.
  split.
  - assert (Hin : In (CLogsFromNode "invite-follower")
                    (calls (handleNewLogs "t1" "alice" "" (record_of "invite-follower") bob)))
      by (vm_compute; tauto).
    do 4 (split; [first [exact Hin | reflexivity]|]).
    exact (proj2 (proj1 (handleNewLogs_roles_assigned "t1" "alice" "" (record_of "invite-follower")
                    bob "invite-follower" doc_follower None (Some "/p2p/bob") None
                    Hin eq_refl eq_refl) eq_refl eq_refl)).
  - split; [reflexivity|].
    assert (Hin : In (CLogsFromNode "invite-reader")
                    (calls (handleNewLogs "t1" "alice" "" (record_of "invite-reader") bob)))
      by (vm_compute; tauto).
    exact (proj2 (handleNewLogs_roles_assigned "t1" "alice" "" (record_of "invite-reader")
             bob "invite-reader" doc_reader (Some own_log) None None
             Hin eq_refl eq_refl) own_log eq_refl).
Defined.

Lemma fixture_mixed_invalid : Exists (fun lg => ~ matching lg) (Logs_Logs doc_mixed).
Proof. apply Exists_cons_tl, Exists_cons_hd. intros Hm. discriminate Hm. Defined.

Lemma fixture_carol_mixed_invalid :
  Exists (fun lg => ~ matching lg) (Logs_Logs doc_carol_mixed).
Proof. apply Exists_cons_tl, Exists_cons_hd. intros Hm. discriminate Hm. Defined.

(** C4, as stated, fails on the test node: the document of the mixed
    invitation holds alice's descriptor and then a mismatching one; the
    merger returns "invalid log" after it has upserted alice's
    descriptor, which the directory then knows. *)
Lemma handleNewLogs_rejects_atomically_counterexample :
  In (CLogsFromNode "invite-mixed")
     (calls (handleNewLogs "t1" "alice" "" (record_of "invite-mixed") bob)) /\
  LogsFromNode "invite-mixed" = Ok doc_mixed /\
  Exists (fun lg => ~ matching lg) (Logs_Logs doc_mixed) /\
  upserts (calls (handleNewLogs "t1" "alice" "" (record_of "invite-mixed") bob))
  = [CAddLog "t1" alice_log] /\
  store_PubKey bob "t1" "alice" = Ok None /\
  store_PubKey (state (handleNewLogs "t1" "alice" "" (record_of "invite-mixed") bob))
    "t1" "alice" = Ok (Some "alice") /\
  ~ rejects_atomically "t1" "alice" "" (record_of "invite-mixed") bob.
Proof.
  split; [vm_compute; tauto|]. split; [reflexivity|].
  split; [exact fixture_mixed_invalid|].
  split; [reflexivity|]. split; [reflexivity|]. split; [reflexivity|].
  intros (_ & _ & Hup). vm_compute in Hup. discriminate Hup.
Qed.

(** C4 on the test node: the same run, where alice's descriptor is
    upserted before the mismatching one is met; and a document whose first
    descriptor is that of carol's log, carrying a record that carol has not
    signed, where the merger stops before any upsert. *)
Lemma handleNewLogs_invalid_log_witness :
  (let run := handleNewLogs "t1" "alice" "" (record_of "invite-mixed") bob in
   result run = Ok (None, None, Some "invalid log") /\
   n_dir (state run) = [("t1", alice_log)] /\
   exists pre bad rest,
     Logs_Logs doc_mixed = pre ++ bad :: rest /\ Forall matching pre /\ ~ matching bad /\
     state run = state (handleNewLogs_loop "t1" "alice" (record_of "invite-mixed") pre bob) /\
     (forall u,
        result (handleNewLogs_loop "t1" "alice" (record_of "invite-mixed") pre bob) = Ok u ->
        AddLog_each "t1" pre bob = (None, state run)) /\
     (forall id' lg, In (CAddLog id' lg) (calls run) -> id' = "t1" /\ In lg pre)) /\
  (let run := handleNewLogs "t1" "carol" "" (record_of "invite-carol-mixed") bob in
   result run = Ok (None, None, Some "bad record signature") /\
   state run = bob /\
   exists pre bad rest,
     Logs_Logs doc_carol_mixed = pre ++ bad :: rest /\
     Forall matching pre /\ ~ matching bad /\
     state run
     = state (handleNewLogs_loop "t1" "carol" (record_of "invite-carol-mixed") pre bob) /\
     (forall id' lg, In (CAddLog id' lg) (calls run) -> id' = "t1" /\ In lg pre)).
Proof.
  split.
  - intros run.
    assert (Hin : In (CLogsFromNode "invite-mixed") (calls run)) by (vm_compute; tauto).
    split; [reflexivity|]. split; [reflexivity|].
    destruct (handleNewLogs_invalid_log "t1" "alice" "" (record_of "invite-mixed") bob
                "invite-mixed" doc_mixed Hin eq_refl fixture_mixed_invalid)
      as (pre & bad & rest & e & Hsplit & Hpre & Hbad & He & _ & Hst & _ & Hok & Herr & Hadd).
    exists pre, bad, rest. do 4 (split; [assumption|]). split; [|exact Hadd].
    intros u Hu. exact (proj1 (proj2 (Hok u Hu))).
  - intros run.
    assert (Hin : In (CLogsFromNode "invite-carol-mixed") (calls run))
      by (vm_compute; tauto).
    split; [reflexivity|]. split; [reflexivity|].
    destruct (handleNewLogs_invalid_log "t1" "carol" "" (record_of "invite-carol-mixed") bob
                "invite-carol-mixed" doc_carol_mixed Hin eq_refl fixture_carol_mixed_invalid)
      as (pre & bad & rest & e & Hsplit & Hpre & Hbad & He & _ & Hst & _ & Hok & Herr & Hadd).
    exists pre, bad, rest. do 4 (split; [assumption|]). exact Hadd.
Defined.


(** C5 on the test node: the reader invitation carries its follow key;
    alice's post does not, and bob decodes it when he knows her log and
    fails when he does not; a request without a follow key and without a
    thread makes the handler panic. *)
Lemma PushRecord_envelope_key_witness :
  decoded_under req_reader bob "invite-reader"
    (HeaderKey {| pk_Key := Some "fk-alice" |}) [] /\
  decoded_under req_nokey bob_alice "post" (StoreKey "fk-alice") [CFollowKey "t1" "alice"] /\
  PushRecord req_nokey bob
  = (Returns (Err "follow key not found"), bob, [CFollowKey "t1" "alice"]) /\
  PushRecord req_nothread bob = (Panics, bob, []).
Proof.
  split; [|split; [|split]].
  - exact (proj1 (PushRecord_envelope_key req_reader bob
                    (header "alice" (Some "alice") "alice:invite-reader" fk_alice None)
                    "alice" "invite-reader" eq_refl eq_refl eq_refl eq_refl)
             {| pk_Key := Some "fk-alice" |} eq_refl).
  - exact (proj2 (proj2 (proj2 (proj2 (PushRecord_envelope_key req_nokey bob_alice
                           (header "alice" (Some "alice") "alice:post" None None)
                           "alice" "post" eq_refl eq_refl eq_refl eq_refl) eq_refl)
                           "t1" "alice" eq_refl eq_refl))
             "fk-alice" eq_refl).
  - exact (proj1 (proj2 (proj2 (proj2 (PushRecord_envelope_key req_nokey bob
                           (header "alice" (Some "alice") "alice:post" None None)
                           "alice" "post" eq_refl eq_refl eq_refl eq_refl) eq_refl)
                           "t1" "alice" eq_refl eq_refl))
             eq_refl).
  - exact (proj1 (proj2 (PushRecord_envelope_key req_nothread bob
                           (header "alice" (Some "alice") "alice:post" None None)
                           "alice" "post" eq_refl eq_refl eq_refl eq_refl) eq_refl)
             (or_introl eq_refl)).
Defined.

(** C6 on the test node: a request with a matching key, one whose sender
    does not embed a key, one that bob accepts, one with a forged
    signature, one without a sender and one without a record. The request
    without a sender, delivered on the topic, ends the loop of [subscribe]
    in a panic: nothing is logged and the reader invitation delivered after
    it is never handled. *)
Lemma PushRecord_signer_witness :
  requestPubKey (header "alice" (Some "alice") "alice:invite-reader" fk_alice None)
  = Returns (Ok "alice") /\
  (exists e, requestPubKey (header "Qmalice" None "alice:post" fk_alice None)
             = Returns (Err e)) /\
  (exists pk r payload,
     requestPubKey (header "alice" (Some "alice") "alice:invite-reader" fk_alice None)
     = Returns (Ok pk) /\
     req_Record req_reader = Some r /\
     Record_Marshal r = Ok payload /\
     PubKey_Verify pk payload "alice:invite-reader" = (true, None)) /\
  PushRecord req_badsig bob = (Returns (Err "bad signature"), bob, []) /\
  PushRecord req_nofrom bob = (Panics, bob, []) /\
  PushRecord req_norecord bob = (Panics, bob, []) /\
  Unmarshal (msg_Data msg_nofrom) = Ok req_nofrom /\
  subscribe_loop [Ok msg_nofrom; Ok msg_reader] bob = (Panics, bob, []).
Proof.
  split; [|split; [|split; [|split; [|split; [|split; [|split; [reflexivity|]]]]]]].
  - exact (proj1 (proj1 (proj1 (proj2 (PushRecord_signer req_reader bob
                           (header "alice" (Some "alice") "alice:invite-reader" fk_alice None)
                           eq_refl)) "alice" eq_refl) "alice" eq_refl) eq_refl).
  - apply (proj2 (proj2 (proj1 (proj2 (PushRecord_signer req_hashed bob
                                  (header "Qmalice" None "alice:post" fk_alice None)
                                  eq_refl)) "Qmalice" eq_refl) eq_refl)).
    intros pubk Hx. discriminate Hx.
  - exact (proj1 (proj2 (proj2 (PushRecord_signer req_reader bob
                                  (header "alice" (Some "alice") "alice:invite-reader"
                                     fk_alice None) eq_refl)))
             {| NewAddr := None |} eq_refl).
  - exact (proj2 (proj2 (proj2 (proj2 (proj2 (PushRecord_signer req_badsig bob
                                  (header "alice" (Some "alice") "forged" fk_alice None)
                                  eq_refl)))) "alice" eq_refl)
             "post" "bad signature" eq_refl eq_refl).
  - exact (proj2 (proj1 (PushRecord_signer req_nofrom bob
                           {| hdr_From := None; hdr_Signature := "alice:post";
                              hdr_Key := Some "alice"; hdr_FollowKey := fk_alice;
                              hdr_ReadKeyLogID := None |} eq_refl) eq_refl)).
  - exact (proj1 (proj2 (proj2 (proj2 (proj2 (PushRecord_signer req_norecord bob
                                  (header "alice" (Some "alice") "alice:post" fk_alice None)
                                  eq_refl)))) "alice" eq_refl) eq_refl).
  - reflexivity.
Defined.

(** C7, as stated, fails on the test node: a message whose sender bytes
    are empty is logged and ends the loop, and the reader invitation
    delivered after it is never handled. *)
Lemma subscribe_loop_continues_counterexample :
  IDFromBytes (msg_From msg_nosender) = Err "empty peer id" /\
  subscribe_loop [Ok msg_nosender; Ok msg_reader] bob
  = (Returns (Ok tt), bob, [CLogError "empty peer id"]) /\
  state (subscribe_loop [Ok msg_reader] bob) <> bob /\
  ~ continues_after msg_nosender [Ok msg_reader] bob.
Proof.
  split; [reflexivity|]. split; [reflexivity|].
  split; [intros Hx; vm_compute in Hx; discriminate Hx|].
  intros Hx. vm_compute in Hx. discriminate Hx.
Qed.

(** C7 on the test node: bob's own message, a message that is not a
    request, the reader invitation, a request with a forged signature, a
    message without a sender, and a request on which [PushRecord] does not
    return. *)
Lemma subscribe_loop_message_witness :
  subscribe_body (Ok msg_self) bob = (Returns (Ok Continue), bob, []) /\
  subscribe_body (Ok msg_junk) bob
  = (Returns (Ok Continue), bob, [CLogError "proto: cannot parse"]) /\
  subscribe_body (Ok msg_reader) bob
  = (Returns (Ok Continue), state (PushRecord req_reader bob),
     calls (PushRecord req_reader bob) ++ []) /\
  subscribe_body (Ok msg_badsig) bob
  = (Returns (Ok Continue), bob, [CLogError "bad signature"]) /\
  continues_after msg_junk [Ok msg_badsig] bob /\
  continues_after msg_badsig [Ok msg_reader] bob /\
  subscribe_loop [Ok msg_nosender; Ok msg_reader] bob
  = (Returns (Ok tt), bob, [CLogError "empty peer id"]) /\
  result (subscribe_body (Ok msg_nofrom) bob) = Panics.
Proof.
  pose proof (fun msg rest =>
                @subscribe_loop_message node crypto codec threads msg rest bob) as Hthm.
  split; [|split; [|split; [|split; [|split; [|split; [|split]]]]]].
  - apply (proj1 (proj1 (Hthm msg_self []) "bob" eq_refl)).
    left. reflexivity.
  - apply (proj1 (proj1 (proj2 (proj1 (Hthm msg_junk []) "alice" eq_refl))
                    ltac:(intros Hx; discriminate Hx))).
    reflexivity.
  - exact (proj1 (proj2 (proj1 (proj2 (proj1 (Hthm msg_reader []) "alice" eq_refl))
                    ltac:(intros Hx; discriminate Hx)))
             req_reader (Ok {| NewAddr := None |}) eq_refl eq_refl).
  - exact (proj1 (proj2 (proj1 (proj2 (proj1 (Hthm msg_badsig []) "alice" eq_refl))
                    ltac:(intros Hx; discriminate Hx)))
             req_badsig (Err "bad signature") eq_refl eq_refl).
  - apply (proj2 (proj2 (proj1 (Hthm msg_junk [Ok msg_badsig]) "alice" eq_refl))).
    intros Hx. discriminate Hx.
  - apply (proj2 (proj2 (proj1 (Hthm msg_badsig [Ok msg_reader]) "alice" eq_refl))).
    intros Hx. discriminate Hx.
  - exact (proj2 (Hthm msg_nosender [Ok msg_reader]) "empty peer id" eq_refl).
  - exact (proj2 (proj2 (proj1 (proj2 (proj1 (Hthm msg_nofrom []) "alice" eq_refl))
                    ltac:(intros Hx; discriminate Hx)))
             req_nofrom eq_refl eq_refl).
Defined.

(** C8 on the test node: bob holds alice's read key and none for carol. *)
Lemma pushRecord_ReadKeyLogID_witness :
  (exists hdr logKey,
     req_Header (request "bob" (Some "bob") "bob:post" (Some {| pk_Key := Some "fk-alice" |})
                   (Some "alice") "post") = Some hdr /\
     store_ReadKey bob_alice "t1" "alice" = Ok logKey /\
     (hdr_ReadKeyLogID hdr = Some "alice" <-> is_Some logKey) /\
     (hdr_ReadKeyLogID hdr = None <-> logKey = None)) /\
  (exists hdr logKey,
     req_Header (request "bob" (Some "bob") "bob:post" (Some {| pk_Key := Some "fk-alice" |})
                   None "post") = Some hdr /\
     store_ReadKey bob_alice "t1" "carol" = Ok logKey /\
     (hdr_ReadKeyLogID hdr = Some "carol" <-> is_Some logKey) /\
     (hdr_ReadKeyLogID hdr = None <-> logKey = None)).
Proof.
  split.
  - exact (pushRecord_ReadKeyLogID (record_of "post") "t1" "alice" settings_alice bob_alice
             ["/p2p/dave"] _ eq_refl).
  - exact (pushRecord_ReadKeyLogID (record_of "post") "t1" "alice" settings_carol bob_alice
             [] _ eq_refl).
Defined.

(** C10 on three calls: a, b, and a again with another record. *)
Lemma records_Store_List_witness :
  let r := Store "a" record_a newRecords in
  Store "a" record_b r = r /\
  records_s (Store "b" record_b r) = [record_a; record_b] /\
  List_ (store_all [("a", record_a); ("b", record_b); ("a", record_b)] newRecords)
  = [record_a; record_b].
Proof.
  intros r.
  destruct (records_Store_List r "a" record_b
              [("a", record_a); ("b", record_b); ("a", record_b)])
    as (Hknown & _ & Hlist & _).
  destruct (records_Store_List r "b" record_b []) as (_ & Hfresh & _).
  split; [|split].
  - apply Hknown. exists record_a. reflexivity.
  - apply Hfresh. reflexivity.
  - exact Hlist.
Defined.
End OnTheTestNode.

(** ** The read-only handlers, the pulls and the start of the service *)

Section LocalProps.
Context {W : Type} `{!Crypto} `{!Codec W} `{!Threads W} `{!ThreadsLocal W}.
Implicit Types (w : W) (id tid : ThreadID) (lid : PeerID).

Lemma getLogs_log_GetLogs_log (l : LogInfo) :
  exists l',
    getLogs_log (GetLogs_log l) = Some l' /\
    lg_ID l' = lg_ID l /\ lg_PubKey l' = lg_PubKey l /\
    lg_FollowKey l' = lg_FollowKey l /\ lg_ReadKey l' = lg_ReadKey l /\
    lg_Addrs l' = lg_Addrs l /\ lg_Heads l' = lg_Heads l /\ lg_PrivKey l' = None.
Proof. eexists. split; [reflexivity|]. by repeat split. Qed.

Lemma getLogs_logs_nil (ls : list (option pbLog)) :
  In None ls -> getLogs_logs ls = Panics.
Proof.
  induction ls as [|l ls IH]; [intros []|].
  intros [-> | Hin]; [done|]. simpl.
  destruct (getLogs_log l); [|done]. by rewrite (IH Hin).
Qed.

(** X1. What [getLogs] makes of the reply of [GetLogs] to its own request:
    the logs the serving node knows for the thread, in order, each with its
    ID, public key, follow key, read key, addresses and heads as they are,
    and without a private key. An error of the serving node's [getLogs]
    comes back as it is. Neither side panics on the way; on a reply that
    holds a nil log [getLogs] does. *)
Theorem getLogs_GetLogs w tid :
  (forall lgs, threads_getLogs w tid = Ok lgs ->
     exists reply lgs',
       GetLogs (getLogs_request tid) w = Returns (Ok reply) /\
       getLogs (Ok reply) = Returns (Ok lgs') /\
       Forall2 (fun l l' =>
                  lg_ID l' = lg_ID l /\ lg_PubKey l' = lg_PubKey l /\
                  lg_FollowKey l' = lg_FollowKey l /\ lg_ReadKey l' = lg_ReadKey l /\
                  lg_Addrs l' = lg_Addrs l /\ lg_Heads l' = lg_Heads l /\
                  lg_PrivKey l' = None) lgs lgs') /\
  (forall e, threads_getLogs w tid = Err e ->
     GetLogs (getLogs_request tid) w = Returns (Err e) /\
     getLogs (Err e) = Returns (Err e)) /\
  (forall reply, In None (glp_Logs reply) -> getLogs (Ok reply) = Panics).
Proof.
  split; [|split].
  - intros lgs Hl. unfold getLogs, GetLogs. simpl. rewrite Hl. simpl.
    clear Hl.
    assert (Hloop : exists lgs',
               getLogs_logs (map GetLogs_log lgs) = Returns (Ok lgs') /\
               Forall2 (fun l l' =>
                          lg_ID l' = lg_ID l /\ lg_PubKey l' = lg_PubKey l /\
                          lg_FollowKey l' = lg_FollowKey l /\ lg_ReadKey l' = lg_ReadKey l /\
                          lg_Addrs l' = lg_Addrs l /\ lg_Heads l' = lg_Heads l /\
                          lg_PrivKey l' = None) lgs lgs').
    { induction lgs as [|l lgs IH].
      - exists []. split; [done|constructor].
      - destruct IH as (lgs' & Hrun & Hall).
        destruct (getLogs_log_GetLogs_log l) as (l' & Hl' & Hfields).
        exists (l' :: lgs'). split; [|by constructor].
        cbn [map getLogs_logs]. by rewrite Hl', Hrun. }
    destruct Hloop as (lgs' & Hrun & Hall). eauto.
  - intros e He. unfold getLogs, GetLogs. simpl. by rewrite He.
  - intros reply Hin. by apply getLogs_logs_nil.
Qed.

Lemma PullRecords_records_spec w recs :
  match PullRecords_records w recs with
  | Ok pbs => Forall2 (fun r pb => RecordToProto w r = Ok pb) recs pbs
  | Err e =>
      exists done r, take (length done) recs = done /\
                     recs !! length done = Some r /\
                     Forall (fun r' => exists pb, RecordToProto w r' = Ok pb) done /\
                     RecordToProto w r = Err e
  end.
Proof.
  induction recs as [|r recs IH]; simpl; [constructor|].
  destruct (RecordToProto w r) as [pb|e] eqn:Hr.
  - destruct (PullRecords_records w recs) as [pbs|e].
    + by constructor.
    + destruct IH as (done & r' & Ht & Hl & Hd & He).
      exists (r :: done), r'. simpl. rewrite Ht. repeat split; try done.
      constructor; eauto.
  - exists [], r. by repeat split.
Qed.

(** X2. The reply of [PullRecords] is all or nothing. When it succeeds it
    holds one wire record for each record [pullLocal] returned, in the same
    order, each the conversion of its record. When a record does not
    convert there is no reply, and the error is that of the first such
    record. *)
Theorem PullRecords_all_or_nothing w req tid lid offset recs :
  prr_ThreadID req = Some tid -> prr_LogID req = Some lid -> prr_Offset req = Some offset ->
  threads_pullLocal w tid lid offset (prr_Limit req) = Ok recs ->
  (forall reply, PullRecords req w = Returns (Ok reply) ->
     Forall2 (fun r pb => RecordToProto w r = Ok pb) recs (prp_Records reply)) /\
  (Forall (fun r => exists pb, RecordToProto w r = Ok pb) recs ->
     exists reply, PullRecords req w = Returns (Ok reply) /\
                   length (prp_Records reply) = length recs) /\
  (forall e, PullRecords req w = Returns (Err e) ->
     exists i r, recs !! i = Some r /\ RecordToProto w r = Err e /\
                 forall j r', (j < i)%nat -> recs !! j = Some r' ->
                              exists pb, RecordToProto w r' = Ok pb).
Proof.
  intros Htid Hlid Hoff Hl. unfold PullRecords. rewrite Htid, Hlid, Hoff, Hl.
  pose proof (PullRecords_records_spec w recs) as Hs.
  destruct (PullRecords_records w recs) as [pbs|e]; split; [|split| |split].
  - by intros reply [= <-].
  - intros _. eexists. split; [reflexivity|]. simpl.
    symmetry. by eapply Forall2_length.
  - discriminate.
  - discriminate.
  - intros Hall. destruct Hs as (done & r & _ & Hr & _ & He).
    rewrite Forall_forall in Hall.
    destruct (Hall r) as [pb Hpb]; [by eapply list_elem_of_lookup_2|congruence].
  - intros e' [= <-]. destruct Hs as (done & r & Ht & Hr & Hd & He).
    exists (length done), r. repeat split; try done.
    intros j r' Hj Hr'. rewrite Forall_forall in Hd. apply Hd.
    rewrite <- Ht. apply list_elem_of_lookup. exists j.
    by rewrite lookup_take_lt.
Qed.

Lemma pullRecords_stores_spec key rs :
  exists n,
    Forall2 (fun r kv => RecordFromProto r key = Ok (snd kv) /\ fst kv = rec_Cid (snd kv))
            (take n rs) (fst (pullRecords_stores key rs)) /\
    match snd (pullRecords_stores key rs) with
    | None => n = length rs
    | Some e => exists r, rs !! n = Some r /\ RecordFromProto r key = Err e
    end.
Proof.
  induction rs as [|r rs (n & Hn & Herr)]; simpl.
  - exists 0%nat. split; [constructor|done].
  - destruct (RecordFromProto r key) as [rec|e] eqn:Hr.
    + destruct (pullRecords_stores key rs) as [cs oe]. simpl in *.
      exists (S n). split; [by constructor|].
      destruct oe; [done|by rewrite Herr].
    + exists 0%nat. split; [constructor|]. simpl. eauto.
Qed.

(** X3. The [Store] calls a goroutine of [pullRecords] makes for a reply
    are those of the records before the first one that does not decode
    under the follow key, in order, each record stored under its own CID;
    the records after that one are not looked at. Without such a record
    every record of the reply is stored and nothing is logged. *)
Theorem pullRecords_stores_prefix key rs cs oe :
  pullRecords_stores key rs = (cs, oe) ->
  exists n,
    Forall2 (fun r kv => RecordFromProto r key = Ok (snd kv) /\ fst kv = rec_Cid (snd kv))
            (take n rs) cs /\
    match oe with
    | None => n = length rs
    | Some e => exists r, rs !! n = Some r /\ RecordFromProto r key = Err e
    end.
Proof.
  intros Hs. pose proof (pullRecords_stores_spec key rs) as Hspec.
  by rewrite Hs in Hspec.
Qed.

Lemma first_insertions_keyed (cs : list (Cid * Record_)) seen :
  Forall (fun kv => fst kv = rec_Cid (snd kv)) cs ->
  map rec_Cid (map snd (first_insertions seen cs)) = map fst (first_insertions seen cs).
Proof.
  intros Hk.
  assert (Hf : Forall (fun kv => fst kv = rec_Cid (snd kv)) (first_insertions seen cs)).
  { rewrite Forall_forall in *. intros kv Hkv. apply Hk.
    eapply elem_of_sublist; [exact Hkv | apply first_insertions_sublist]. }
  induction Hf as [|kv l Hkv _ IH]; simpl; [done|]. by rewrite IH, Hkv.
Qed.

(** X4. The records [pullRecords] returns do not depend, up to their
    order, on the order in which the goroutines store what they pulled.
    For two orders [cs] and [cs'] of the same [Store] calls, each storing a
    record under its own CID, [List] returns the same CIDs, each once; and
    the same records, when the calls with the same CID store the same
    record. *)
Theorem records_order_independent (cs cs' : list (Cid * Record_)) :
  Forall (fun kv => fst kv = rec_Cid (snd kv)) cs ->
  cs ≡ₚ cs' ->
  let l := List_ (store_all cs newRecords) in
  let l' := List_ (store_all cs' newRecords) in
  NoDup (map rec_Cid l) /\
  map rec_Cid l ≡ₚ map rec_Cid l' /\
  ((forall kv kv', kv ∈ cs -> kv' ∈ cs -> fst kv = fst kv' -> snd kv = snd kv') ->
   l ≡ₚ l').
Proof.
  intros Hk Hp l l'. subst l l'.
  assert (Hk' : Forall (fun kv => fst kv = rec_Cid (snd kv)) cs') by by rewrite <- Hp.
  rewrite !store_all_List. simpl. rewrite !dom_empty_L.
  rewrite !first_insertions_keyed by done.
  assert (Hcids : map fst (first_insertions ∅ cs) ≡ₚ map fst (first_insertions ∅ cs')).
  { apply NoDup_Permutation; try apply first_insertions_NoDup.
    intros c. rewrite !first_insertions_keys. by rewrite Hp. }
  split; [apply first_insertions_NoDup|]. split; [done|].
  intros Hca.
  assert (Hnd : forall xs, Forall (fun kv => fst kv = rec_Cid (snd kv)) xs ->
                  NoDup (map snd (first_insertions ∅ xs))).
  { intros xs Hxs. eapply (NoDup_fmap_1 rec_Cid).
    change (NoDup (map rec_Cid (map snd (first_insertions ∅ xs)))).
    rewrite first_insertions_keyed by done. apply first_insertions_NoDup. }
  assert (Hmem : forall xs,
             (forall kv kv', kv ∈ xs -> kv' ∈ xs -> fst kv = fst kv' -> snd kv = snd kv') ->
             forall v, v ∈ map snd (first_insertions ∅ xs) <-> v ∈ map snd xs).
  { intros xs Hx v. split.
    - intros (kv & -> & Hin)%list_elem_of_fmap.
      apply list_elem_of_fmap. exists kv. split; [done|].
      eapply elem_of_sublist; [exact Hin | apply first_insertions_sublist].
    - intros ([c v0] & -> & Hin)%list_elem_of_fmap. simpl.
      assert (Hc : c ∈ map fst (first_insertions ∅ xs)).
      { apply first_insertions_keys. split; [|set_solver].
        apply list_elem_of_fmap. by exists (c, v0). }
      apply list_elem_of_fmap in Hc as ([c' v'] & Hcc & Hin'). simpl in Hcc. subst c'.
      assert (Hxs' : (c, v') ∈ xs).
      { eapply elem_of_sublist; [exact Hin' | apply first_insertions_sublist]. }
      pose proof (Hx (c, v0) (c, v') Hin Hxs' eq_refl) as Hv. simpl in Hv. subst v0.
      apply list_elem_of_fmap. by exists (c, v'). }
  apply NoDup_Permutation; [by apply Hnd | by apply Hnd |].
  intros v. rewrite (Hmem cs Hca), (Hmem cs').
  - by rewrite Hp.
  - intros kv kv' Hin Hin'. apply Hca; by rewrite Hp.
Qed.

Lemma pullHistory_put_spec id lid recs : forall w,
  exists done rest,
    recs = done ++ rest /\
    calls (pullHistory_put id lid recs w) = map (fun r => CPutRecord r id lid) done /\
    (result (pullHistory_put id lid recs w) = Ok tt -> rest = []) /\
    (forall e, result (pullHistory_put id lid recs w) = Err e ->
       exists done' r w1, done = done' ++ [r] /\ fst (PutRecord w1 r id lid) = Some e).
Proof.
  induction recs as [|r recs IH]; intros w.
  - exists [], []. by repeat split.
  - simpl. unfold bind, update.
    destruct (PutRecord w r id lid) as [[e|] w'] eqn:Hp.
    + exists [r], recs. split; [done|]. split; [done|]. split; [discriminate|].
      intros e' [= <-]. exists [], r, w. by rewrite Hp.
    + destruct (IH w') as (done & rest & -> & Hc & Hok & Herr).
      unfold result, calls in *.
      destruct (pullHistory_put id lid (done ++ rest) w') as [[res w2] t2]. simpl in *.
      exists (r :: done), rest. split; [done|]. split; [by rewrite Hc|].
      split; [exact Hok|].
      intros e He. destruct (Herr e He) as (done' & r' & w1 & -> & Hf).
      by exists (r :: done'), r', w1.
Qed.

(** X5. [pullHistory] hands the pulled records to [PutRecord] one after
    the other, in the order [pullRecords] returned them, for the thread and
    log it was asked for. It stops at the first [PutRecord] that fails and
    returns its error: the records after that one are not put. When
    [pullRecords] failed nothing is put. *)
Theorem pullHistory_puts id lid pulled w :
  (forall e, pulled = Err e -> pullHistory id lid pulled w = (Err e, w, [])) /\
  (forall recs, pulled = Ok recs ->
     exists done rest,
       recs = done ++ rest /\
       calls (pullHistory id lid pulled w) = map (fun r => CPutRecord r id lid) done /\
       (result (pullHistory id lid pulled w) = Ok tt -> rest = []) /\
       (forall e, result (pullHistory id lid pulled w) = Err e ->
          exists done' r w1, done = done' ++ [r] /\ fst (PutRecord w1 r id lid) = Some e)).
Proof.
  split.
  - by intros e ->.
  - intros recs ->.
    assert (Heq : pullHistory id lid (Ok recs) w = pullHistory_put id lid recs w).
    { unfold pullHistory, bind, lift.
      by destruct (pullHistory_put id lid recs w) as [[r w'] t]. }
    rewrite Heq. apply pullHistory_put_spec.
Qed.

Lemma newService_subscribe_run ts w :
  newService_subscribe ts w = (Ok tt, w, map CGoSubscribe ts).
Proof.
  induction ts as [|id ts IH]; simpl; [done|].
  unfold bind, emit. by rewrite IH.
Qed.

(** X6. [newService] starts one subscription for each thread of the store,
    in the order of the store, and changes nothing else. When the gossip
    layer cannot be created or the store cannot list its threads it returns
    that error and starts no subscription. *)
Theorem newService_subscriptions ps w :
  (forall e, ps = Some e -> newService ps w = (Err e, w, [])) /\
  (forall e, ps = None -> store_Threads w = Err e -> newService ps w = (Err e, w, [])) /\
  (forall ts, ps = None -> store_Threads w = Ok ts ->
     newService ps w = (Ok tt, w, map CGoSubscribe ts)).
Proof.
  split; [|split].
  - by intros e ->.
  - intros e -> He. unfold newService, bind, check, peek. by rewrite He.
  - intros ts -> Hts. unfold newService, bind, check, peek. rewrite Hts.
    by rewrite newService_subscribe_run.
Qed.
End LocalProps.


(** ** More on the mergers *)

Section MergerProps.
Context {W : Type} `{!Crypto} `{!Codec W} `{!Threads W}.
Implicit Types (w : W) (id : ThreadID) (lid kid : PeerID) (rec : Record_).

Lemma AddLog_each_app id (l1 l2 : list LogInfo) w w1 :
  AddLog_each id l1 w = (None, w1) ->
  AddLog_each id (l1 ++ l2) w = AddLog_each id l2 w1.
Proof.
  revert w. induction l1 as [|lg l1 IH]; intros w; simpl.
  - by intros [= ->].
  - destruct (store_AddLog w id lg) as [[e|] w0]; [discriminate|]. apply IH.
Qed.

Lemma filter_upsert_calls id lgs :
  length (List.filter is_GoPullHistory (upsert_calls id lgs)) = length lgs.
Proof. induction lgs as [|lg lgs IH]; [done|]. simpl. by rewrite IH. Qed.

(** X7. The loop of the new-log merger. A descriptor is handed to
    [AddLog] only if it is one of the document that matches its key and,
    when it is the descriptor of the log that carries the record, only if
    the record verifies under its public key. History pulls are spawned
    for the thread of the request, never more of them than there were
    upserts; which log a goroutine pulls is read from the loop variable when
    it runs, and is not fixed by the spawn. The loop succeeds exactly when
    every descriptor matches its key, the record verifies where it must and
    every [AddLog] succeeds: the node it leaves is then the one these
    [AddLog] calls left, and its calls are [AddLog] and a spawn for each
    descriptor in turn. *)
Theorem handleNewLogs_loop_upserts id lid rec lgs w :
  let run := handleNewLogs_loop id lid rec lgs w in
  (forall id' lg, In (CAddLog id' lg) (calls run) ->
     id' = id /\ In lg lgs /\ matching lg /\ verified_for lid rec lg) /\
  (forall id', In (CGoPullHistory id') (calls run) -> id' = id) /\
  (length (List.filter is_GoPullHistory (calls run)) <= length (upserts (calls run)))%nat /\
  (forall u, result run = Ok u ->
     Forall matching lgs /\ Forall (verified_for lid rec) lgs /\
     AddLog_each id lgs w = (None, state run) /\
     calls run = upsert_calls id lgs) /\
  (Forall matching lgs -> Forall (verified_for lid rec) lgs ->
   forall w', AddLog_each id lgs w = (None, w') ->
     run = (Ok tt, w', upsert_calls id lgs)).
Proof.
  intros run. subst run.
  split; [intros id' lg; apply handleNewLogs_loop_AddLog|].
  destruct (handleNewLogs_loop_spec id lid rec lgs w)
    as (done & rest & wd & -> & Hdone & Hver & Hadd & Hrun).
  assert (Hcalls : exists t,
             calls (handleNewLogs_loop id lid rec (done ++ rest) w) = upsert_calls id done ++ t /\
             (t = [] \/ exists lg, t = [CAddLog id lg])).
  { destruct rest as [|lg0 rest].
    - exists []. rewrite Hrun, app_nil_r. split; [done|by left].
    - destruct Hrun as (e & w' & t & Hstop & ->). exists t. split; [done|].
      destruct Hstop as [(_ & _ & _ & ->) | [(_ & _ & _ & _ & ->) | (_ & _ & _ & ->)]];
        eauto. }
  destruct Hcalls as (t & Hc & Ht).
  split; [|split; [|split]].
  - intros id'. rewrite Hc. intros [Hin|Hin]%in_app_iff.
    + unfold upsert_calls in Hin. apply in_flat_map in Hin as (lg & _ & [Hx|[[= ->]|[]]]).
      * discriminate Hx.
      * reflexivity.
    + destruct Ht as [-> | [lg ->]]; [destruct Hin|].
      destruct Hin as [Hx|[]]. discriminate Hx.
  - rewrite Hc, List.filter_app, upserts_app, !length_app, filter_upsert_calls,
      upserts_upsert_calls, length_map.
    destruct Ht as [-> | [lg ->]]; simpl; lia.
  - intros u Hu. destruct rest as [|lg0 rest].
    + rewrite app_nil_r in *. rewrite Hrun. by repeat split.
    + destruct Hrun as (e & w' & t' & _ & Hl). rewrite Hl in Hu. discriminate Hu.
  - intros Hm Hv w' Hall. destruct rest as [|lg0 rest].
    + rewrite app_nil_r in *. rewrite Hrun. rewrite Hadd in Hall. by injection Hall as <-.
    + exfalso. destruct Hrun as (e & w1 & t' & Hstop & _).
      apply Forall_app in Hm as [_ Hm]. apply Forall_cons in Hm as [Hm _].
      apply Forall_app in Hv as [_ Hv]. apply Forall_cons in Hv as [Hv _].
      rewrite (AddLog_each_app _ _ _ _ _ Hadd) in Hall. simpl in Hall.
      destruct Hstop as [(Hn & _) | [(_ & Hc' & Hs & _) | (_ & _ & Hs & _)]].
      * by apply Hn.
      * rewrite (Hv Hc') in Hs. discriminate Hs.
      * rewrite Hs in Hall. discriminate Hall.
Qed.

Lemma handleLogUpdate_loop_upserts id lid rec lgs : forall w id' lg,
  In (CAddLog id' lg) (calls (handleLogUpdate_loop id lid rec lgs w)) ->
  id' = id /\ In lg lgs /\ ID_String (lg_ID lg) = ID_String lid /\ matching lg /\
  Record_Verify rec (lg_PubKey lg) = None.
Proof.
  induction lgs as [|lg0 lgs IH]; intros w id' lg; simpl.
  - intros [].
  - unfold bind, check, update, fail, calls.
    destruct (MatchesPublicKey (lg_ID lg0) (lg_PubKey lg0)) eqn:Hm; simpl; [|intros []].
    destruct (String.eqb (ID_String (lg_ID lg0)) (ID_String lid)) eqn:Heq; simpl.
    2: { intros Hin. destruct (IH w id' lg Hin) as (? & ? & ? & ? & ?).
         repeat split; try done. by right. }
    apply String.eqb_eq in Heq.
    destruct (Record_Verify rec (lg_PubKey lg0)) as [e|] eqn:Hrv; simpl; [intros []|].
    destruct (store_AddLog w id lg0) as [[e|] w'] eqn:Ha; simpl.
    + intros [[= <- <-]|[]]. repeat split; try done. by left.
    + specialize (IH w' id' lg). unfold calls in IH.
      destruct (handleLogUpdate_loop id lid rec lgs w') as [[r w2] t2]; simpl in *.
      intros [[= <- <-]|Hin].
      * repeat split; try done. by left.
      * destruct (IH Hin) as (? & ? & ? & ? & ?).
        repeat split; try done. by right.
Qed.

(** X8. The log-update merger upserts only descriptors of the log that
    carries the record: each descriptor it hands to [AddLog] has the ID of
    that log, matches its public key, and the record verifies under that
    key; descriptors of other logs are never upserted. Beyond that it only
    reads: it creates no log, adds no address, spawns nothing. *)
Theorem handleLogUpdate_owner_only id lid rec w :
  (forall id' lg, In (CAddLog id' lg) (calls (handleLogUpdate id lid rec w)) ->
     id' = id /\ ID_String (lg_ID lg) = ID_String lid /\ matching lg /\
     Record_Verify rec (lg_PubKey lg) = None) /\
  forallb (fun c => decode_call c || is_AddLog c) (calls (handleLogUpdate id lid rec w)) = true.
Proof.
  split.
  - intros id' lg.
    pose proof (fun lgs w0 => handleLogUpdate_loop_upserts id lid rec lgs w0 id' lg) as Hloop.
    unfold handleLogUpdate, bind, query, call, ret, calls in *.
    repeat (case_inner; simpl in * ).
    all: intros Hin.
    all: repeat match goal with
           | Hd : _ \/ _ |- _ => destruct Hd as [Hd|Hd]; [discriminate Hd|]
           | Hf : False |- _ => destruct Hf
           end.
    match goal with
    | Hl : handleLogUpdate_loop _ _ _ ?lgs ?w0 = _ |- _ =>
        specialize (Hloop lgs w0); rewrite Hl in Hloop; simpl in Hloop
    end.
    destruct (Hloop Hin) as (? & ? & ? & ? & ?). by repeat split.
  - pose proof (handleLogUpdate_loop_only id lid rec) as Hloop.
    assert (Hk : only (fun c => decode_call c || is_AddLog c) (handleLogUpdate id lid rec)).
    { unfold handleLogUpdate. repeat only_step.
      eapply only_weaken; [|apply Hloop]. intros c Hc. by rewrite Hc, orb_true_r. }
    apply Hk.
Qed.

(** X9. The new-log merger without key material. For a thread that has
    logs at this peer, when the directory has no read key for the key log
    named by the request the merger returns "read key not found"; for a
    thread without logs, when the host has no private key it returns "key
    for host not found". In both cases it has only read: nothing is
    decoded, upserted or spawned, and the node is as it was. *)
Theorem handleNewLogs_missing_key id lid kid rec w event ti :
  EventFromRecord w rec = Ok event ->
  store_ThreadInfo w id = Ok ti ->
  (ti_Logs ti <> [] -> store_ReadKey w id kid = Ok None ->
     handleNewLogs id lid kid rec w
     = (Ok (None, None, Some "read key not found"), w,
        [CEventFromRecord rec; CThreadInfo id; CReadKey id kid])) /\
  (ti_Logs ti = [] -> getPrivKey w = None ->
     handleNewLogs id lid kid rec w
     = (Ok (None, None, Some "key for host not found"), w,
        [CEventFromRecord rec; CThreadInfo id; CGetPrivKey])).
Proof.
  intros He Hti. split.
  - intros Hne Hrk.
    unfold handleNewLogs, named_results, handleNewLogs_logs, bind, query, fail.
    rewrite He, Hti. destruct (ti_Logs ti); [done|]. simpl. by rewrite Hrk.
  - intros Hnil Hsk.
    unfold handleNewLogs, named_results, handleNewLogs_logs, bind, query, fail.
    rewrite He, Hti, Hnil. simpl. by rewrite Hsk.
Qed.

Lemma handleNewLogs_roles_subscribes id lid lgs newThread w :
  let run := handleNewLogs_roles id lid lgs newThread w in
  (forall id', In (CGoSubscribe id') (calls run) -> id' = id) /\
  (In (CGoSubscribe id) (calls run) <->
   newThread = true /\ exists ownLog newAddr, result run = Ok (ownLog, newAddr, None)).
Proof.
  unfold handleNewLogs_roles, or_return, bind, lift, update, invoke, emit, ret,
    result, calls.
  destruct newThread; repeat (case_inner; simpl in * ).
  all: split; [intros id'; intros Hin|split; [intros Hin|intros (Hnt & ol & na & Hres)]].
  all: repeat match goal with
         | Hd : _ \/ _ |- _ => destruct Hd as [Hd|Hd]
         | Hf : False |- _ => destruct Hf
         | He : CGoSubscribe _ = CGoSubscribe _ |- _ => injection He as <-
         | He : _ = CGoSubscribe _ |- _ => discriminate He
         end; try done; try discriminate.
  all: try (split; [done|]; eauto).
  all: try (right; right; by left).
  all: try (right; by left).
  all: try (by left).
  all: right; right; right; by left.
Qed.

Lemma handleNewLogs_logs_newThread id kid rec w lgs newThread ti :
  result (handleNewLogs_logs id kid rec w) = Ok (lgs, newThread) ->
  store_ThreadInfo w id = Ok ti ->
  newThread = true <-> ti_Logs ti = [].
Proof.
  intros Hres Hti. revert Hres.
  unfold handleNewLogs_logs, bind, lift, query, call, ret, fail, result.
  rewrite Hti.
  repeat (case_inner; simpl in *; try discriminate).
  all: intros [= <- <-]; destruct (ti_Logs ti); simpl in *; split; intros; done.
Qed.

(** X10. The new-log merger spawns a subscription exactly when it has
    joined a new thread: when the thread had no log at this peer and the
    merger returns without an error. The subscription is for the thread of
    the request. *)
Theorem handleNewLogs_subscribes id lid kid rec w ti ownLog newAddr err :
  store_ThreadInfo w id = Ok ti ->
  result (handleNewLogs id lid kid rec w) = Ok (ownLog, newAddr, err) ->
  (In (CGoSubscribe id) (calls (handleNewLogs id lid kid rec w)) <->
   ti_Logs ti = [] /\ err = None) /\
  (forall id', In (CGoSubscribe id') (calls (handleNewLogs id lid kid rec w)) -> id' = id).
Proof.
  intros Hti.
  destruct (handleNewLogs_logs_spec id kid rec w) as (Hst & Hdec & _).
  pose proof (fun lgs nt => handleNewLogs_logs_newThread id kid rec w lgs nt ti) as Hnt.
  unfold handleNewLogs, named_results, bind.
  unfold result, state, calls in *.
  destruct (handleNewLogs_logs id kid rec w) as [[[[lgs nt]|e] w1] t1]; simpl in *.
  2: { intros [= <- <- <-]. rewrite forallb_forall in Hdec. split.
       - split; [intros Hin; apply Hdec in Hin; discriminate Hin|intros [_ Hx]; discriminate Hx].
       - intros id' Hin. apply Hdec in Hin. discriminate Hin. }
  subst w1. specialize (Hnt lgs nt eq_refl Hti).
  pose proof (handleNewLogs_loop_only id lid rec (Logs_Logs lgs) w) as Hloop.
  unfold calls in Hloop.
  destruct (handleNewLogs_loop id lid rec (Logs_Logs lgs) w) as [[[u|e] w2] t2]; simpl in *.
  2: { intros [= <- <- <-]. rewrite forallb_forall in Hdec, Hloop.
       assert (Hno : forall id', ~ In (CGoSubscribe id') (t1 ++ t2)).
       { intros id' [Hin|Hin]%in_app_iff; [apply Hdec in Hin|apply Hloop in Hin];
           discriminate Hin. }
       split; [split; [by intros ?%Hno|intros [_ Hx]; discriminate Hx]|].
       by intros id' ?%Hno. }
  destruct (handleNewLogs_roles_subscribes id lid lgs nt w2) as [Hid Hiff].
  unfold result, calls in Hid, Hiff.
  destruct (handleNewLogs_roles id lid lgs nt w2) as [[r3 w3] t3]; simpl in *.
  rewrite forallb_forall in Hdec, Hloop.
  assert (Hin3 : forall id', In (CGoSubscribe id') (t1 ++ t2 ++ t3) <-> In (CGoSubscribe id') t3).
  { intros id'. rewrite !in_app_iff. split; [|tauto].
    intros [Hin|[Hin|Hin]]; [apply Hdec in Hin|apply Hloop in Hin|done]; discriminate Hin. }
  destruct r3 as [[[ol na] er]|e]; simpl; intros [= <- <- <-].
  - split; [|intros id' Hin; apply Hin3 in Hin; by apply Hid].
    rewrite Hin3, Hiff, Hnt. split.
    + intros [? (? & ? & [= <- <- <-])]. done.
    + intros [? ->]. split; [done|]. eauto.
  - split; [|intros id' Hin; apply Hin3 in Hin; by apply Hid].
    rewrite Hin3, Hiff, Hnt. split.
    + intros [? (? & ? & [=])].
    + intros [_ [=]].
Qed.
End MergerProps.

(** ** More on PushRecord *)

Section PushRecordMore.
Context {W : Type} `{!Crypto} `{!Codec W} `{!Threads W}.
Implicit Types (w : W) (req : PushRecordRequest) (hdr : Header) (rec : Record_).
Implicit Types (id : ThreadID) (lid : PeerID).

(** X11. A record for a log whose public key the directory knows. When
    the record does not verify under that key [PushRecord] returns the
    error after the lookup of the key, with the node as it was. When it
    verifies, the record is handed to [PutRecord] whatever the log-update
    merger returned: an error of the merger is dropped, its success is
    logged. The reply is the one allocated at the start, without a new
    address, and the run is the lookup, the merger, the log line if any,
    and [PutRecord]. *)
Theorem PushRecord_known_log id lid hdr rec reply w logpk :
  store_PubKey w id lid = Ok (Some logpk) ->
  (forall e, Record_Verify rec logpk = Some e ->
     PushRecord_new id lid hdr rec reply w = (Err e, w, [CPubKey id lid])) /\
  (Record_Verify rec logpk = None ->
     let u := handleLogUpdate id lid rec w in
     let p := PutRecord (state u) rec id lid in
     PushRecord_new id lid hdr rec reply w
     = (match fst p with None => Ok reply | Some e => Err e end,
        snd p,
        CPubKey id lid
        :: calls u
        ++ match result u with
           | Ok _ => [CLogInfo ("log " +:+ ID_String lid +:+ " updated")]
           | Err _ => []
           end
        ++ [CPutRecord rec id lid])).
Proof.
  intros Hpk. split.
  - intros e Hv. unfold PushRecord_new, bind, query, check. by rewrite Hpk, Hv.
  - intros Hv. cbv zeta.
    unfold PushRecord_new, bind, query, check, attempt, emit, update, ret.
    rewrite Hpk, Hv. unfold result, state, calls.
    destruct (handleLogUpdate id lid rec w)
      as [[[u|e] w1] t1]; simpl.
    all: destruct (PutRecord w1 rec id lid) as [[e'|] w2];
      simpl; by rewrite ?app_nil_r, <- ?app_assoc.
Qed.

Lemma handleNewLogs_roles_newAddr id lid lgs newThread w ownLog a err :
  result (handleNewLogs_roles id lid lgs newThread w) = Ok (ownLog, Some a, err) ->
  ownLog = None /\
  NewMultiaddr ("/" +:+ P_P2P_Name +:+ "/" +:+ ID_String host_ID) = Ok a /\
  In (CAddAddr id lid a PermanentAddrTTL) (calls (handleNewLogs_roles id lid lgs newThread w)).
Proof.
  unfold handleNewLogs_roles, or_return, bind, lift, update, invoke, emit, ret,
    result, calls.
  destruct (Readable lgs), newThread; simpl.
  all: repeat (case_inner; simpl in *; try discriminate).
  all: intros [= <- <- <-]; repeat split; try done; simpl; tauto.
Qed.

Lemma handleNewLogs_newAddr id lid kid rec w ownLog a err :
  result (handleNewLogs id lid kid rec w) = Ok (ownLog, Some a, err) ->
  ownLog = None /\
  NewMultiaddr ("/" +:+ P_P2P_Name +:+ "/" +:+ ID_String host_ID) = Ok a /\
  In (CAddAddr id lid a PermanentAddrTTL) (calls (handleNewLogs id lid kid rec w)).
Proof.
  unfold handleNewLogs, named_results, bind, result, calls.
  destruct (handleNewLogs_logs id kid rec w) as [[[[lgs nt]|e] w1] t1]; simpl;
    [|discriminate].
  destruct (handleNewLogs_loop id lid rec (Logs_Logs lgs) w1) as [[[u|e] w2] t2]; simpl;
    [|discriminate].
  pose proof (handleNewLogs_roles_newAddr id lid lgs nt w2) as Hr.
  unfold result, calls in Hr.
  destruct (handleNewLogs_roles id lid lgs nt w2) as [[[r|e] w3] t3]; simpl in *;
    [|discriminate].
  intros [= ->]. destruct (Hr _ _ _ eq_refl) as (? & ? & ?).
  repeat split; try done. rewrite !in_app_iff. tauto.
Qed.

Lemma PushRecord_new_NewAddr id lid hdr rec w reply a :
  result (PushRecord_new id lid hdr rec {| NewAddr := None |} w) = Ok reply ->
  NewAddr reply = Some a ->
  NewMultiaddr ("/" +:+ P_P2P_Name +:+ "/" +:+ ID_String host_ID) = Ok a /\
  In (CAddAddr id lid a PermanentAddrTTL)
     (calls (PushRecord_new id lid hdr rec {| NewAddr := None |} w)) /\
  forallb (fun c => negb (is_AddRecord c))
    (calls (PushRecord_new id lid hdr rec {| NewAddr := None |} w)) = true.
Proof.
  pose proof (fun kid => handleNewLogs_newAddr id lid kid rec w) as Hn.
  pose proof (fun kid => handleNewLogs_only id lid kid rec w) as Ho.
  unfold PushRecord_new, bind, lift, check, query, call, ret, fail, update, invoke,
    attempt, emit, result, calls in *.
  repeat (case_inner; simpl in *; try discriminate).
  all: intros [= <-]; simpl; intros Ha; try discriminate Ha.
  all: injection Ha as ->.
  all: match goal with
       | Hh : handleNewLogs _ _ ?kid _ _ = _ |- _ =>
           specialize (Hn kid); specialize (Ho kid); rewrite Hh in Hn, Ho;
           simpl in Hn, Ho; destruct (Hn _ _ _ eq_refl) as (Hol & Hma & Hin)
       end.
  all: try discriminate Hol.
  all: split; [done|]; split; [right; rewrite !in_app_iff; tauto|].
  all: rewrite !forallb_app; simpl; rewrite !andb_true_r.
  all: rewrite forallb_forall in *; intros c Hc; specialize (Ho c Hc); by destruct c.
Qed.

(** X12. An address [PushRecord] returns in its reply is this peer's
    p2p multiaddress, and [PushRecord] has registered it in the directory
    for the thread and the log of the request, with the permanent TTL. A
    run that returns an address has not advertised an own log. *)
Theorem PushRecord_NewAddr_registered req w reply a :
  result (PushRecord req w) = Returns (Ok reply) ->
  NewAddr reply = Some a ->
  NewMultiaddr ("/" +:+ P_P2P_Name +:+ "/" +:+ ID_String host_ID) = Ok a /\
  (exists id lid,
     req_ThreadID req = Some id /\ req_LogID req = Some lid /\
     In (CAddAddr id lid a PermanentAddrTTL) (calls (PushRecord req w))) /\
  forallb (fun c => negb (is_AddRecord c)) (calls (PushRecord req w)) = true.
Proof.
  pose proof (fun id lid hdr rec => PushRecord_new_NewAddr id lid hdr rec w reply a) as Hnew.
  unfold PushRecord, bindP, pure, deref, returns, retP, failP, check, query, call,
    result, calls in *.
  repeat (case_inner; simpl in *; try discriminate).
  all: intros Hres Ha.
  all: try (injection Hres as <-; discriminate Ha).
  all: match goal with
       | Hn : PushRecord_new ?i ?l ?h ?r _ _ = _ |- _ =>
           specialize (Hnew i l h r); rewrite Hn in Hnew; simpl in Hnew;
           injection Hres as ->;
           destruct (Hnew eq_refl Ha) as (Hma & Hin & Hno)
       end.
  all: split; [done|]; split; [|done].
  all: eexists _, _; split; [reflexivity|]; split; [reflexivity|]; tauto.
Qed.

(** X13. A run of [PushRecord] calls [PutRecord] at most once, and only
    for a record the block store said it did not have: the record decoded
    from the request, for the thread and the log of the request. *)
Theorem PushRecord_persists_once req w :
  (length (List.filter is_PutRecord (calls (PushRecord req w))) <= 1)%nat /\
  (forall rec id lid, In (CPutRecord rec id lid) (calls (PushRecord req w)) ->
     req_ThreadID req = Some id /\ req_LogID req = Some lid /\
     In (CHas (rec_Cid rec)) (calls (PushRecord req w)) /\
     bstore_Has w (rec_Cid rec) = Ok false /\
     exists r key,
       req_Record req = Some r /\
       In (CRecordFromProto r key) (calls (PushRecord req w)) /\
       RecordFromProto r key = Ok rec).
Proof.
  pose proof (fun id lid hdr rec =>
                PushRecord_new_calls id lid hdr rec {| NewAddr := None |} w)
    as Hnew.
  assert (Hf : forall pre, forallb admit_call pre = true -> List.filter is_PutRecord pre = []).
  { induction pre as [|c pre IH]; [done|]. simpl. intros [Hc Hp]%andb_prop.
    rewrite (IH Hp). by destruct c. }
  unfold PushRecord, bindP, pure, deref, returns, retP, failP, check, query, call,
    calls, recordFromProto in *.
  repeat (case_inner; simpl in * ).
  all: try (split; [lia|]; intros rec0 id0 lid0 Hin;
            repeat (destruct Hin as [Hin|Hin]; try discriminate Hin); done).
  all: match goal with
       | Hn : PushRecord_new ?i ?l ?h ?r _ _ = _ |- _ =>
           destruct (Hnew i l h r) as (pre & post & Hc & Hpre & Hpost);
           rewrite Hn in Hc; simpl in Hc; subst
       end.
  all: split;
    [rewrite List.filter_app, (Hf _ Hpre); destruct Hpost as [->| ->]; simpl; lia|].
  all: intros rec0 id0 lid0 Hin.
  all: repeat (destruct Hin as [Hin|Hin]; try discriminate Hin).
  all: apply in_app_iff in Hin as [Hin|Hin];
    [rewrite forallb_forall in Hpre; apply Hpre in Hin; discriminate Hin|].
  all: destruct Hpost as [->| ->]; [destruct Hin|].
  all: destruct Hin as [[= <- <- <-]|[]].
  all: repeat split; try done; try tauto.
  all: eexists _, _; split; [reflexivity|]; split; [|eassumption]; tauto.
Qed.
Lemma requestPubKey_Panics hdr :
  requestPubKey hdr = Panics <-> hdr_From hdr = None.
Proof.
  unfold requestPubKey.
  destruct (hdr_Key hdr), (hdr_From hdr) as [from|]; try (split; [discriminate|discriminate]).
  all: try (split; reflexivity).
  - destruct (negb _); split; discriminate.
  - destruct (ExtractPublicKey from) as [[pubk|]|e]; split; discriminate.
Qed.

(** X19. [PushRecord] panics only on a request that has a header and in
    which [From], [Record], [ThreadID] or [LogID] is nil. When it panics
    the node is as it was, and all that has been called are the reads that
    lead to the lookup in the block store. A request that has the four
    pointers never makes it panic, whatever the collaborators return; a
    request without a header is refused with an error. *)
Theorem PushRecord_panics req w :
  (result (PushRecord req w) = Panics ->
     state (PushRecord req w) = w /\
     forallb unpack_call (calls (PushRecord req w)) = true /\
     exists hdr,
       req_Header req = Some hdr /\
       (hdr_From hdr = None \/ req_Record req = None \/
        req_ThreadID req = None \/ req_LogID req = None)) /\
  (forall hdr from r id lid,
     req_Header req = Some hdr -> hdr_From hdr = Some from -> req_Record req = Some r ->
     req_ThreadID req = Some id -> req_LogID req = Some lid ->
     result (PushRecord req w) <> Panics) /\
  (req_Header req = None ->
     PushRecord req w = (Returns (Err "request header is required"), w, [])).
Proof.
  split; [|split].
  - pose proof (fun hdr => proj1 (requestPubKey_Panics hdr)) as Hpk.
    unfold PushRecord, bindP, pure, deref, returns, retP, failP, check, query, call,
      result, state, calls in *.
    repeat (case_inner; simpl in *; try discriminate); intros _.
    all: split; [reflexivity|]; split; [reflexivity|].
    all: eexists; split; [reflexivity|]; auto.
  - intros hdr from r id lid Hh Hfrom Hr Hid Hlid.
    assert (Hpk : requestPubKey hdr <> Panics).
    { intros Hx. apply requestPubKey_Panics in Hx. congruence. }
    unfold PushRecord, bindP, pure, deref, returns, retP, failP, check, query, call,
      result in *.
    rewrite Hh, Hr, Hid, Hlid.
    repeat (case_inner; simpl in *; try discriminate); congruence.
  - intros Hh. unfold PushRecord. by rewrite Hh.
Qed.
End PushRecordMore.

(** ** More on the outbound request and the subscription loop *)

Section OutboundProps.
Context {W : Type} `{!Crypto} `{!Codec W} `{!Threads W}.
Implicit Types (w : W) (id tid : ThreadID) (lid : PeerID) (rec : Record_).

Lemma pushRecord_addrs_spec tid lid logs : forall acc w,
  (forall addrs, result (pushRecord_addrs tid lid logs acc w) = Ok addrs ->
     exists per,
       Forall2 (fun l la => store_Addrs w tid l = Ok la)
               (List.filter (fun l => negb (String.eqb (ID_String l) (ID_String lid))) logs)
               per /\
       addrs = acc ++ concat per) /\
  (forall tid' l, In (CAddrs tid' l) (calls (pushRecord_addrs tid lid logs acc w)) ->
     tid' = tid /\ In l logs /\ ID_String l <> ID_String lid).
Proof.
  induction logs as [|l0 logs IH]; intros acc w; simpl.
  - split; [|intros ? ? []]. intros addrs [= <-]. exists []. split; [constructor|].
    by rewrite app_nil_r.
  - destruct (String.eqb (ID_String l0) (ID_String lid)) eqn:Heq; simpl.
    + destruct (IH acc w) as [Hres Hcalls]. split; [exact Hres|].
      intros tid' l Hin. destruct (Hcalls _ _ Hin) as (? & ? & ?). repeat split; try done.
      by right.
    + apply String.eqb_neq in Heq.
      unfold bind, query, result, calls.
      destruct (store_Addrs w tid l0) as [la|e] eqn:Hla; simpl.
      2: { split; [discriminate|]. intros tid' l [[= <- <-]|[]]. repeat split; try done.
           by left. }
      destruct (IH (acc ++ la) w) as [Hres Hcalls]. unfold result, calls in *.
      destruct (pushRecord_addrs tid lid logs (acc ++ la) w) as [[r w1] t1]; simpl in *.
      split.
      * intros addrs ->. destruct (Hres addrs eq_refl) as (per & Hper & ->).
        exists (la :: per). split; [by constructor|]. simpl. by rewrite app_assoc.
      * intros tid' l [[= <- <-]|Hin]; [repeat split; try done; by left|].
        destruct (Hcalls _ _ Hin) as (? & ? & ?). repeat split; try done. by right.
Qed.

(** X14. The addresses [pushRecord] pushes to are the addresses the
    directory holds for the logs of the thread other than the log of the
    record, log after log in the order of the thread info and without
    removing duplicates, followed by the addresses given in the settings.
    The addresses of the log of the record are not asked for. *)
Theorem pushRecord_request_addrs rec id lid settings w addrs req :
  result (pushRecord_request rec id lid settings w) = Ok (addrs, req) ->
  let tid := set_ThreadID settings in
  (exists ti per,
     store_ThreadInfo w tid = Ok ti /\
     Forall2 (fun l la => store_Addrs w tid l = Ok la)
             (List.filter (fun l => negb (String.eqb (ID_String l) (ID_String lid)))
                          (ti_Logs ti))
             per /\
     addrs = concat per ++ set_Addrs settings) /\
  (forall tid' log, In (CAddrs tid' log) (calls (pushRecord_request rec id lid settings w)) ->
     tid' = tid /\ ID_String log <> ID_String lid).
Proof.
  intros Hres tid. subst tid. revert Hres.
  pose proof (fun logs => pushRecord_addrs_spec (set_ThreadID settings) lid logs [] w)
    as Hloop.
  unfold pushRecord_request, bind, lift, query, ret, fail, result, calls in *.
  repeat (case_inner; simpl in *; try discriminate).
  all: intros [= <- <-].
  all: match goal with
       | Ha : pushRecord_addrs _ _ ?logs _ _ = _ |- _ =>
           destruct (Hloop logs) as [Hr Hc]; rewrite Ha in Hr, Hc; simpl in Hr, Hc
       end.
  all: destruct (Hr _ eq_refl) as (per & Hper & ->); split;
    [eexists _, per; split; [reflexivity|]; split; [exact Hper|done]|].
  all: intros tid' log Hin.
  all: repeat (destruct Hin as [Hin|Hin]; try discriminate Hin).
  all: apply in_app_iff in Hin as [Hin|Hin];
    [destruct (Hc _ _ Hin) as (? & ? & ?); done|].
  all: repeat (destruct Hin as [Hin|Hin]; try discriminate Hin); destruct Hin.
Qed.

(** X15. A request built by [pushRecord] passes the checks [PushRecord]
    makes of a request: its header names this host and carries the public
    key of the host key, which [requestPubKey] returns, and its signature
    verifies over the serialization of its record under that key. This
    holds when the identity of the host matches the public key of its
    private key and signatures made with a private key verify under its
    public key. *)
Theorem pushRecord_request_verifies rec id lid settings w addrs req :
  result (pushRecord_request rec id lid settings w) = Ok (addrs, req) ->
  (forall sk, getPrivKey w = Some sk -> MatchesPublicKey host_ID (GetPublic sk) = true) ->
  (forall sk payload sig,
     PrivKey_Sign sk payload = Ok sig ->
     PubKey_Verify (GetPublic sk) payload sig = (true, None)) ->
  exists hdr sk r,
    req_Header req = Some hdr /\
    getPrivKey w = Some sk /\
    hdr_From hdr = Some host_ID /\
    requestPubKey hdr = Returns (Ok (GetPublic sk)) /\
    req_Record req = Some r /\
    verifyRequestSignature r (GetPublic sk) (hdr_Signature hdr) = None.
Proof.
  intros Hres Hid Hsig. revert Hres.
  pose proof (pushRecord_addrs_state (set_ThreadID settings) lid) as Hst.
  unfold pushRecord_request, bind, lift, query, ret, fail, result, state in *.
  repeat (case_inner; simpl in *; try discriminate).
  all: intros [= <- <-]; simpl.
  all: match goal with
       | Ha : pushRecord_addrs _ _ ?logs ?a ?w0 = _ |- _ =>
           specialize (Hst logs a w0); rewrite Ha in Hst; simpl in Hst; subst
       end.
  all: repeat match goal with
         | He : Ok _ = Ok _ |- _ => injection He as ?; subst
         end.
  all: eexists _, _, _; split; [reflexivity|]; split; [eassumption|]; split; [reflexivity|].
  all: split; [unfold requestPubKey; simpl; by rewrite Hid|].
  all: split; [reflexivity|].
  all: unfold verifyRequestSignature; simpl.
  all: match goal with Hm : Record_Marshal _ = Ok _ |- _ => rewrite Hm end.
  all: by erewrite Hsig.
Qed.

Lemma PushRecord_header_key req hdr fk w :
  req_Header req = Some hdr ->
  hdr_FollowKey hdr = Some fk ->
  forall c, In c (calls (PushRecord req w)) ->
    match c with
    | CFollowKey _ _ => False
    | CRecordFromProto r k => Some r = req_Record req /\ k = HeaderKey fk
    | _ => True
    end.
Proof.
  intros Hh Hfk c.
  set (P := fun c : Call =>
              match c with
              | CFollowKey _ _ => False
              | CRecordFromProto r k => Some r = req_Record req /\ k = HeaderKey fk
              | _ => True
              end).
  change (In c (calls (PushRecord req w)) -> P c).
  assert (Hadmit : forall c', (admit_call c' || is_PutRecord c') = true -> P c')
    by (by intros []).
  assert (Hdec : forall r, req_Record req = Some r -> P (CRecordFromProto r (HeaderKey fk)))
    by (intros r Hr; unfold P; by rewrite Hr).
  assert (Hhas : forall x, P (CHas x)) by done.
  clearbody P.
  pose proof (fun id lid rec reply => PushRecord_new_only id lid hdr rec reply w) as Hnew.
  unfold PushRecord, bindP, pure, deref, returns, retP, failP, check, query, call,
    calls in *.
  rewrite Hh, Hfk.
  repeat (case_inner; simpl in * ).
  all: intros Hin.
  all: repeat match goal with
         | Hd : _ \/ _ |- _ => destruct Hd as [Hd|Hd]; [subst c|]
         | Hf : False |- _ => destruct Hf
         end.
  all: try (by apply Hdec).
  all: try apply Hhas.
  all: match goal with
       | Hn : PushRecord_new ?i ?l _ ?r ?rp _ = _ |- _ =>
           specialize (Hnew i l r rp); rewrite Hn in Hnew; simpl in Hnew
       end.
  all: rewrite forallb_forall in Hnew; apply Hadmit, Hnew, Hin.
Qed.

(** X16. A request built by [pushRecord] always carries a follow key
    field: the follow key the directory of the sender holds for the log of
    the record, or an empty one when it holds none. [PushRecord], given
    such a request, decodes the record under that field and never asks its
    own directory for the follow key. *)
Theorem pushRecord_request_follow_key rec id lid settings w addrs req :
  result (pushRecord_request rec id lid settings w) = Ok (addrs, req) ->
  exists hdr fk,
    req_Header req = Some hdr /\
    store_FollowKey w id lid = Ok fk /\
    hdr_FollowKey hdr = Some {| pk_Key := fk |} /\
    forall w' c, In c (calls (PushRecord req w')) ->
      match c with
      | CFollowKey _ _ => False
      | CRecordFromProto r k => Some r = req_Record req /\ k = HeaderKey {| pk_Key := fk |}
      | _ => True
      end.
Proof.
  intros Hres.
  assert (Hhdr : exists hdr fk,
             req_Header req = Some hdr /\ store_FollowKey w id lid = Ok fk /\
             hdr_FollowKey hdr = Some {| pk_Key := fk |}).
  { revert Hres.
    pose proof (pushRecord_addrs_state (set_ThreadID settings) lid) as Hst.
    unfold pushRecord_request, bind, lift, query, ret, fail, result, state in *.
    repeat (case_inner; simpl in *; try discriminate).
    all: intros [= <- <-]; simpl.
    all: match goal with
         | Ha : pushRecord_addrs _ _ ?logs ?a ?w0 = _ |- _ =>
             specialize (Hst logs a w0); rewrite Ha in Hst; simpl in Hst; subst
         end.
    all: eexists _, _; split; [reflexivity|]; split; [eassumption|]; reflexivity. }
  destruct Hhdr as (hdr & fk & Hh & Hfk & Hk).
  exists hdr, fk. repeat split; try done.
  intros w' c. by apply PushRecord_header_key with (hdr := hdr).
Qed.

(** X17. Messages of this peer that come back on the topic do not count:
    the run of the loop of [subscribe] on a sequence of deliveries is its
    run on the sequence without the deliveries from this peer. *)
Theorem subscribe_loop_drops_self (items : list (Result Message)) : forall w,
  subscribe_loop (List.filter (fun item => negb (from_self item)) items) w
  = subscribe_loop items w.
Proof.
  induction items as [|item items IH]; intros w; [done|].
  simpl List.filter. destruct (from_self item) eqn:Hs; simpl negb; cbv iota.
  - rewrite IH. unfold from_self in Hs.
    destruct item as [msg|e]; [|discriminate].
    simpl. unfold subscribe_body, bindP, retP.
    destruct (IDFromBytes (msg_From msg)) as [from|e]; [|discriminate].
    rewrite Hs. simpl. by destruct (subscribe_loop items w) as [[r w'] t].
  - simpl. unfold bindP.
    destruct (subscribe_body item w) as [[[[[]|e]|] w1] t1]; [|done|done|done].
    by rewrite IH.
Qed.

(** X18. The loop of [subscribe] ends at the first delivery that is an
    error of [sub.Next] or a message whose sender does not parse: the
    deliveries after it are not looked at. *)
Theorem subscribe_loop_stops (pre rest : list (Result Message)) item :
  fatal item = true ->
  forall w, subscribe_loop (pre ++ item :: rest) w = subscribe_loop (pre ++ [item]) w.
Proof.
  intros Hf. induction pre as [|x pre IH]; intros w.
  - simpl. unfold bindP, subscribe_body, logError, returns, emit, retP. unfold fatal in Hf.
    destruct item as [msg|e]; [|done].
    by destruct (IDFromBytes (msg_From msg)).
  - simpl. unfold bindP.
    destruct (subscribe_body x w) as [[[[[]|e]|] w1] t1]; [|done|done|done].
    by rewrite IH.
Qed.
End OutboundProps.

(** ** More runs on the test node *)

Section MoreOnTheTestNode.
Import Fixture FixtureLocal.

(** X1 on the test node: bob serves the two logs he holds of thread t1. *)
Lemma getLogs_GetLogs_witness :
  threads_getLogs bob_two "t1" = Ok [alice_full_log; carol_log] /\
  exists reply lgs',
    GetLogs (getLogs_request "t1") bob_two = Returns (Ok reply) /\
    getLogs (Ok reply) = Returns (Ok lgs') /\
    Forall2 (fun l l' =>
               lg_ID l' = lg_ID l /\ lg_PubKey l' = lg_PubKey l /\
               lg_FollowKey l' = lg_FollowKey l /\ lg_ReadKey l' = lg_ReadKey l /\
               lg_Addrs l' = lg_Addrs l /\ lg_Heads l' = lg_Heads l /\
               lg_PrivKey l' = None) [alice_full_log; carol_log] lgs'.
Proof.
  split; [reflexivity|].
  exact (proj1 (@getLogs_GetLogs node threads local bob_two "t1")
           [alice_full_log; carol_log] eq_refl).
Defined.

(** X2 on the test node: one record pulled from bob's two. *)
Lemma PullRecords_all_or_nothing_witness :
  threads_pullLocal bob_two "t1" "alice" "" 1 = Ok [record_of "post"] /\
  exists reply, PullRecords pull_one bob_two = Returns (Ok reply) /\
                length (prp_Records reply) = 1%nat.
Proof.
  split; [reflexivity|].
  apply (proj1 (proj2 (@PullRecords_all_or_nothing node codec local
                         bob_two pull_one "t1" "alice" "" [record_of "post"]
                         eq_refl eq_refl eq_refl eq_refl))).
  constructor; [|constructor]. eexists. reflexivity.
Defined.

(** X3 on the test node: a reply of two records under alice's follow key. *)
Lemma pullRecords_stores_prefix_witness :
  exists n,
    Forall2 (fun r kv => RecordFromProto r (StoreKey "fk-alice") = Ok (snd kv) /\
                         fst kv = rec_Cid (snd kv))
            (take n ["a"; "b"]) [("cid:a", record_a); ("cid:b", record_b)] /\
    n = length ["a"; "b"].
Proof.
  exact (@pullRecords_stores_prefix node codec (StoreKey "fk-alice") ["a"; "b"]
           [("cid:a", record_a); ("cid:b", record_b)] None eq_refl).
Defined.

(** X4 on two orders of three [Store] calls. *)
Lemma records_order_independent_witness :
  let cs := [("cid:a", record_a); ("cid:b", record_b); ("cid:a", record_a)] in
  let cs' := [("cid:b", record_b); ("cid:a", record_a); ("cid:a", record_a)] in
  NoDup (map rec_Cid (List_ (store_all cs newRecords))) /\
  map rec_Cid (List_ (store_all cs newRecords))
  ≡ₚ map rec_Cid (List_ (store_all cs' newRecords)).
Proof.
  intros cs cs'.
  assert (Hk : Forall (fun kv : Cid * Record_ => fst kv = rec_Cid (snd kv)) cs)
    by (repeat constructor).
  assert (Hp : cs ≡ₚ cs') by apply perm_swap.
  destruct (records_order_independent cs cs' Hk Hp) as (Hnd & Hperm & _).
  split; [exact Hnd | exact Hperm].
Defined.

(** X5 on the test node: two pulled records. *)
Lemma pullHistory_puts_witness :
  exists done rest,
    [record_a; record_b] = done ++ rest /\
    calls (pullHistory "t1" "alice" (Ok [record_a; record_b]) bob)
    = map (fun r => CPutRecord r "t1" "alice") done /\
    (result (pullHistory "t1" "alice" (Ok [record_a; record_b]) bob) = Ok tt -> rest = []) /\
    (forall e, result (pullHistory "t1" "alice" (Ok [record_a; record_b]) bob) = Err e ->
       exists done' r w1, done = done' ++ [r] /\ fst (PutRecord w1 r "t1" "alice") = Some e).
Proof.
  exact (proj2 (@pullHistory_puts node threads "t1" "alice" (Ok [record_a; record_b]) bob)
           [record_a; record_b] eq_refl).
Defined.

(** X6 on the test node: bob holds logs of one thread. *)
Lemma newService_subscriptions_witness :
  store_Threads bob_two = Ok ["t1"] /\
  newService None bob_two = (Ok tt, bob_two, [CGoSubscribe "t1"]) /\
  newService (Some "no gossip") bob_two = (Err "no gossip", bob_two, []).
Proof.
  split; [reflexivity|]. split.
  - exact (proj2 (proj2 (@newService_subscriptions node local None bob_two))
             ["t1"] eq_refl eq_refl).
  - exact (proj1 (@newService_subscriptions node local (Some "no gossip") bob_two)
             "no gossip" eq_refl).
Defined.

(** X7 on the test node: the loop on the document of the reader
    invitation, and on that of the mixed invitation. *)
Lemma handleNewLogs_loop_upserts_witness :
  handleNewLogs_loop "t1" "alice" (record_of "invite-reader") [alice_log] bob
  = (Ok tt,
     {| n_priv := Some "sk:bob"; n_dir := [("t1", alice_log)]; n_blocks := [] |},
     [CAddLog "t1" alice_log; CGoPullHistory "t1"]) /\
  (forall id' lg,
     In (CAddLog id' lg)
        (calls (handleNewLogs_loop "t1" "alice" (record_of "invite-mixed")
                  [alice_log; mallory_log] bob)) ->
     id' = "t1" /\ In lg [alice_log; mallory_log] /\ matching lg /\
     verified_for "alice" (record_of "invite-mixed") lg).
Proof.
  split.
  - apply (proj2 (proj2 (proj2 (proj2
             (@handleNewLogs_loop_upserts node crypto threads "t1" "alice"
                (record_of "invite-reader") [alice_log] bob))))).
    + repeat constructor.
    + repeat constructor.
    + reflexivity.
  - exact (proj1 (@handleNewLogs_loop_upserts node crypto threads "t1" "alice"
                    (record_of "invite-mixed") [alice_log; mallory_log] bob)).
Defined.

(** X8 on the test node: alice's reader invitation as an update of her
    log, which bob knows. *)
Lemma handleLogUpdate_owner_only_witness :
  let run := handleLogUpdate "t1" "alice" (record_of "invite-reader") bob_alice in
  In (CAddLog "t1" alice_log) (calls run) /\
  ID_String (lg_ID alice_log) = ID_String "alice" /\
  matching alice_log /\
  Record_Verify (record_of "invite-reader") (lg_PubKey alice_log) = None /\
  forallb (fun c => decode_call c || is_AddLog c) (calls run) = true.
Proof.
  intros run.
  assert (Hin : In (CAddLog "t1" alice_log) (calls run)) by (vm_compute; tauto).
  destruct (@handleLogUpdate_owner_only node crypto codec threads "t1" "alice"
              (record_of "invite-reader") bob_alice) as (Hadd & Hk).
  destruct (Hadd "t1" alice_log Hin) as (_ & Hid & Hm & Hv).
  by repeat split.
Defined.

(** X9 on the test node: a request that names no key log, for a thread
    bob has a log of; and the reader invitation on a node without a host
    key. *)
Lemma handleNewLogs_missing_key_witness :
  handleNewLogs "t1" "alice" "" (record_of "post") bob_t1
  = (Ok (None, None, Some "read key not found"), bob_t1,
     [CEventFromRecord (record_of "post"); CThreadInfo "t1"; CReadKey "t1" ""]) /\
  handleNewLogs "t1" "alice" "" (record_of "invite-reader") bob_nokey
  = (Ok (None, None, Some "key for host not found"), bob_nokey,
     [CEventFromRecord (record_of "invite-reader"); CThreadInfo "t1"; CGetPrivKey]).
Proof.
  split.
  - apply (proj1 (@handleNewLogs_missing_key node crypto codec threads "t1" "alice" ""
                    (record_of "post") bob_t1 "post"
                    {| ti_ID := "t1"; ti_Logs := ["carol"] |} eq_refl eq_refl)).
    + discriminate.
    + reflexivity.
  - exact (proj2 (@handleNewLogs_missing_key node crypto codec threads "t1" "alice" ""
                    (record_of "invite-reader") bob_nokey "invite-reader"
                    {| ti_ID := "t1"; ti_Logs := [] |} eq_refl eq_refl)
             eq_refl eq_refl).
Defined.

(** X10 on the test node: the reader invitation makes bob subscribe. *)
Lemma handleNewLogs_subscribes_witness :
  store_ThreadInfo bob "t1" = Ok {| ti_ID := "t1"; ti_Logs := [] |} /\
  result (handleNewLogs "t1" "alice" "" (record_of "invite-reader") bob)
  = Ok (Some own_log, None, None) /\
  In (CGoSubscribe "t1")
     (calls (handleNewLogs "t1" "alice" "" (record_of "invite-reader") bob)).
Proof.
  split; [reflexivity|]. split; [reflexivity|].
  apply (proj1 (@handleNewLogs_subscribes node crypto codec threads "t1" "alice" ""
                  (record_of "invite-reader") bob {| ti_ID := "t1"; ti_Logs := [] |}
                  (Some own_log) None None eq_refl eq_refl)).
  split; reflexivity.
Defined.

(** X11 on the test node: alice's post, which is no Logs document, on
    her log, which bob knows. *)
Lemma PushRecord_known_log_witness :
  store_PubKey bob_alice "t1" "alice" = Ok (Some "alice") /\
  Record_Verify (record_of "post") "alice" = None /\
  result (handleLogUpdate "t1" "alice" (record_of "post") bob_alice)
  = Err "not a logs document" /\
  result (PushRecord_new "t1" "alice" hdr_nokey (record_of "post") {| NewAddr := None |}
            bob_alice) = Ok {| NewAddr := None |} /\
  In (CPutRecord (record_of "post") "t1" "alice")
     (calls (PushRecord_new "t1" "alice" hdr_nokey (record_of "post") {| NewAddr := None |}
               bob_alice)).
Proof.
  split; [reflexivity|]. split; [reflexivity|]. split; [reflexivity|].
  rewrite (proj2 (@PushRecord_known_log node crypto codec threads "t1" "alice" hdr_nokey
                    (record_of "post") {| NewAddr := None |} bob_alice "alice" eq_refl)
             eq_refl).
  split; [reflexivity|]. vm_compute. tauto.
Defined.

(** X12 on the test node: the follower invitation. *)
Lemma PushRecord_NewAddr_registered_witness :
  result (PushRecord req_follower bob) = Returns (Ok {| NewAddr := Some "/p2p/bob" |}) /\
  NewMultiaddr ("/" +:+ P_P2P_Name +:+ "/" +:+ ID_String host_ID) = Ok "/p2p/bob" /\
  (exists id lid,
     req_ThreadID req_follower = Some id /\ req_LogID req_follower = Some lid /\
     In (CAddAddr id lid "/p2p/bob" PermanentAddrTTL) (calls (PushRecord req_follower bob))) /\
  forallb (fun c => negb (is_AddRecord c)) (calls (PushRecord req_follower bob)) = true.
Proof.
  split; [reflexivity|].
  exact (@PushRecord_NewAddr_registered node crypto codec threads req_follower bob
           {| NewAddr := Some "/p2p/bob" |} "/p2p/bob" eq_refl eq_refl).
Defined.

(** X13 on the test node: the reader invitation. *)
Lemma PushRecord_persists_once_witness :
  In (CPutRecord (record_of "invite-reader") "t1" "alice") (calls (PushRecord req_reader bob)) /\
  (length (List.filter is_PutRecord (calls (PushRecord req_reader bob))) <= 1)%nat /\
  bstore_Has bob (rec_Cid (record_of "invite-reader")) = Ok false.
Proof.
  assert (Hin : In (CPutRecord (record_of "invite-reader") "t1" "alice")
                  (calls (PushRecord req_reader bob))) by (vm_compute; tauto).
  destruct (@PushRecord_persists_once node crypto codec threads req_reader bob)
    as (Hlen & Hput).
  destruct (Hput _ _ _ Hin) as (_ & _ & _ & Hhas & _).
  split; [exact Hin|]. split; [exact Hlen|exact Hhas].
Defined.

(** X19 on the test node: a request with a follow key in its header and
    without a thread panics after the lookup in the block store; the
    reader invitation, which has its four pointers, does not. *)
Lemma PushRecord_panics_witness :
  PushRecord
    {| req_Header := Some (header "alice" (Some "alice") "alice:post" fk_alice None);
       req_ThreadID := None; req_LogID := Some "alice"; req_Record := Some "post" |} bob
  = (Panics, bob,
     [CRecordFromProto "post" (HeaderKey {| pk_Key := Some "fk-alice" |}); CHas "cid:post"]) /\
  result (PushRecord req_reader bob) <> Panics.
Proof.
  split; [reflexivity|].
  exact (proj1 (proj2 (@PushRecord_panics node crypto codec threads req_reader bob))
           (header "alice" (Some "alice") "alice:invite-reader" fk_alice None)
           "alice" "invite-reader" "t1" "alice" eq_refl eq_refl eq_refl eq_refl eq_refl).
Defined.

(** X14 to X16 on the test node: bob pushes a record of his own log to
    thread t1, of which he holds alice's log. *)
Lemma pushRecord_request_addrs_witness :
  exists req,
    result (pushRecord_request (record_of "post") "t1" "bob-log" settings_alice bob_alice)
    = Ok (["/p2p/alice"; "/p2p/dave"], req) /\
    exists ti per,
      store_ThreadInfo bob_alice "t1" = Ok ti /\
      Forall2 (fun l la => store_Addrs bob_alice "t1" l = Ok la)
              (List.filter (fun l => negb (String.eqb (ID_String l) (ID_String "bob-log")))
                           (ti_Logs ti)) per /\
      ["/p2p/alice"; "/p2p/dave"] = concat per ++ set_Addrs settings_alice.
Proof.
  eexists. split; [reflexivity|].
  exact (proj1 (@pushRecord_request_addrs node crypto codec threads (record_of "post")
                  "t1" "bob-log" settings_alice bob_alice _ _ eq_refl)).
Defined.

Lemma fixture_host_key (sk : PrivKey) :
  getPrivKey bob_alice = Some sk -> MatchesPublicKey host_ID (GetPublic sk) = true.
Proof. intros [= <-]. reflexivity. Defined.

Lemma fixture_signatures (sk : PrivKey) (payload sig : bytes) :
  PrivKey_Sign sk payload = Ok sig ->
  PubKey_Verify (GetPublic sk) payload sig = (true, None).
Proof. intros [= <-]. simpl. by rewrite String.eqb_refl. Defined.

Lemma pushRecord_request_verifies_witness :
  exists addrs req hdr sk r,
    result (pushRecord_request (record_of "post") "t1" "bob-log" settings_alice bob_alice)
    = Ok (addrs, req) /\
    req_Header req = Some hdr /\
    getPrivKey bob_alice = Some sk /\
    hdr_From hdr = Some host_ID /\
    requestPubKey hdr = Returns (Ok (GetPublic sk)) /\
    req_Record req = Some r /\
    verifyRequestSignature r (GetPublic sk) (hdr_Signature hdr) = None.
Proof.
  eexists _, _.
  destruct (@pushRecord_request_verifies node crypto codec threads (record_of "post")
              "t1" "bob-log" settings_alice bob_alice _ _ eq_refl
              fixture_host_key fixture_signatures)
    as (hdr & sk & r & H1 & H2 & H3 & H4 & H5 & H6).
  exists hdr, sk, r. repeat split; assumption.
Defined.

Lemma pushRecord_request_follow_key_witness :
  exists addrs req hdr fk,
    result (pushRecord_request (record_of "post") "t1" "bob-log" settings_alice bob_alice)
    = Ok (addrs, req) /\
    req_Header req = Some hdr /\
    store_FollowKey bob_alice "t1" "bob-log" = Ok fk /\
    hdr_FollowKey hdr = Some {| pk_Key := fk |}.
Proof.
  eexists _, _.
  destruct (@pushRecord_request_follow_key node crypto codec threads (record_of "post")
              "t1" "bob-log" settings_alice bob_alice _ _ eq_refl)
    as (hdr & fk & H1 & H2 & H3 & _).
  exists hdr, fk. repeat split; assumption.
Defined.

(** X18 on the test node: a message without a sender between two
    others. *)
Lemma subscribe_loop_stops_witness :
  fatal (Ok msg_nosender) = true /\
  subscribe_loop ([Ok msg_junk] ++ Ok msg_nosender :: [Ok msg_reader]) bob
  = subscribe_loop ([Ok msg_junk] ++ [Ok msg_nosender]) bob.
Proof.
  split; [reflexivity|].
  exact (@subscribe_loop_stops node crypto codec threads [Ok msg_junk] [Ok msg_reader]
           (Ok msg_nosender) eq_refl bob).
Defined.
End MoreOnTheTestNode.
